(** * The crypto module of the sync client: HMAC, HKDF, key derivation,
      nonce construction and the secretbox facade.

    The JavaScript functions [hmac], [getHKDF], [deriveKeys], [getNonce],
    [encrypt] and [decrypt] are embedded as Rocq functions.  The tweetnacl
    primitives they call (hash, key pair from seed, secretbox and its open)
    are variables of a section, together with the facts about them that the
    proofs rely on.

    The record utilities of the client ([createFromUpdate], [resolve],
    [mergeRecords], [resolveRecords] and the functions they call) are
    embedded in the module [RecordUtil]; the code they require from other
    files is a variable of its section. *)

From Stdlib Require Import ZArith NArith QArith Qround Lia.
From Stdlib Require Import Strings.String Strings.Ascii Strings.Byte.
From stdpp Require Import base list gmap strings pretty.

#[global] Arguments String.append !_ _ : simpl nomatch.

Close Scope Q_scope.
Open Scope nat_scope.

(** ** Bytes and typed arrays *)

(** A [Uint8Array] is a list of bytes. *)
Abbreviation bytes := (list byte).

(** Storing a number in a [Uint8Array] keeps it modulo 256. *)
Definition u8_of_N (n : N) : byte :=
  match Byte.of_N (n mod 256) with
  | Some b => b
  | None => x00
  end.

Definition ToUint8 (z : Z) : byte := u8_of_N (Z.to_N (z mod 256)).

(** Reading an element gives back a number. *)
Definition byte_to_Z (b : byte) : Z := Z.of_N (Byte.to_N b).

(** [a ^ b] on two elements, stored back into the array. *)
Definition byte_xor (a b : byte) : byte :=
  u8_of_N (N.lxor (Byte.to_N a) (Byte.to_N b)).

(** ** JavaScript values, numbers and exceptions *)

(** A finite double is a rational; comparisons, truncation and rounding act
    on its exact value. *)
Inductive number :=
| Fin (q : Q)
| NaN
| PosInf
| NegInf.

Inductive value :=
| VUndefined
| VBool (b : bool)
| VNumber (x : number)
| VString (s : string)
| VUint8Array (b : bytes).

Inductive exn :=
| Error (msg : string)
| TypeError (msg : string)
| RangeError (msg : string).

Inductive result (A : Type) :=
| OK (a : A)
| Throw (e : exn).
Arguments OK {A} a.
Arguments Throw {A} e.

Definition bind {A B} (r : result A) (k : A -> result B) : result B :=
  match r with
  | OK a => k a
  | Throw e => Throw e
  end.

Notation "x <- r ;; k" := (bind r (fun x => k))
  (at level 100, r at next level, right associativity).

(** [x < y] and [x > y] on numbers: every comparison with NaN is false. *)
Definition num_lt (x y : number) : bool :=
  match x, y with
  | NaN, _ | _, NaN => false
  | Fin a, Fin b => negb (Qle_bool b a)
  | Fin _, PosInf => true
  | NegInf, Fin _ => true
  | NegInf, PosInf => true
  | _, _ => false
  end.

Definition num_gt (x y : number) : bool := num_lt y x.

Definition num_of_Z (z : Z) : number := Fin (inject_Z z).

(** The messages of the errors thrown by the module. *)
Definition Inputs_must_be_Uint8Arrays : exn := Error "Inputs must be Uint8Arrays.".
Definition Invalid_extract_length : exn := Error "Invalid extract length.".
Definition Seed_must_be_Uint8Array : exn := Error "Seed must be Uint8Array.".
Definition Invalid_device_ID : exn := Error "Invalid device ID".
Definition Timestamp_too_far : exn := Error "Timestamp is too far in the future.".

(** Errors of the runtime and of tweetnacl's argument checks. *)
Definition Offset_out_of_bounds : exn := RangeError "offset is out of bounds".
Definition Invalid_array_length : exn := RangeError "Invalid array length".
Definition Nacl_unexpected_type : exn := TypeError "unexpected type, use Uint8Array".
Definition Nacl_bad_seed_size : exn := Error "bad seed size".
Definition Nacl_bad_key_size : exn := Error "bad key size".
Definition Nacl_bad_nonce_size : exn := Error "bad nonce size".

(** ** Array operations *)

(** [for (i = start; i < start + count; i++) s = body i s]. *)
Fixpoint for_range {St : Type} (i count : nat) (body : nat -> St -> St) (s : St) : St :=
  match count with
  | 0 => s
  | S c => for_range (S i) c body (body i s)
  end.

(** [buf[i] = c]; a write past the end of a typed array is ignored. *)
Definition store (c : byte) (i : nat) (buf : bytes) : bytes := <[i := c]> buf.

(** [buf[i] ^= key[i]]. *)
Definition xor_at (key : bytes) (i : nat) (buf : bytes) : bytes :=
  match buf !! i, key !! i with
  | Some b, Some k => <[i := byte_xor b k]> buf
  | _, _ => buf
  end.

(** [buf.set(src, offset)] throws when [src] does not fit. *)
Definition typed_set (buf src : bytes) (offset : nat) : result bytes :=
  if length src + offset <=? length buf
  then OK (list_inserts offset src buf)
  else Throw Offset_out_of_bounds.

(** [buf.subarray(0, stop)]. *)
Definition subarray0 (buf : bytes) (stop : nat) : bytes := take stop buf.

Definition BLOCK_SIZE : nat := 128.
Definition HASH_SIZE : nat := 64.

(** ** Strings of hexadecimal digits *)

Definition hex_digit (d : N) : ascii :=
  nth (N.to_nat d) (list_ascii_of_string "0123456789abcdef") "0"%char.

(** The digits of [n] in base 16, most significant first, without leading
    zeros; [fuel] bounds the number of digits. *)
Fixpoint hex_digits (fuel : nat) (n : N) : list ascii :=
  match fuel with
  | 0 => []
  | S f =>
      if (n <? 16)%N then [hex_digit n]
      else hex_digits f (n / 16) ++ [hex_digit (n mod 16)]
  end.

(** [n.toString(16)] for an integer [n]. *)
Definition Number_toString16 (z : Z) : string :=
  let n := Z.abs_N z in
  let s := string_of_list_ascii (hex_digits (S (N.size_nat n)) n) in
  if (z <? 0)%Z then String "-" s else s.

(** The value of a hexadecimal digit, in either case. *)
Definition hex_value (c : ascii) : option N :=
  let n := N_of_ascii c in
  if (48 <=? n)%N && (n <=? 57)%N then Some (n - 48)%N
  else if (97 <=? n)%N && (n <=? 102)%N then Some (n - 87)%N
  else if (65 <=? n)%N && (n <=? 70)%N then Some (n - 55)%N
  else None.

(** [Number('0x' + a + b)], where [a] and [b] are the results of indexing a
    string: an index past the end gives [undefined], and the string is then
    not a number. *)
Definition Number_0x (a b : option ascii) : number :=
  match a, b with
  | Some c1, Some c2 =>
      match hex_value c1, hex_value c2 with
      | Some h, Some l => Fin (inject_Z (Z.of_N (16 * h + l)))
      | _, _ => NaN
      end
  | _, _ => NaN
  end.

(** Truncation towards zero. *)
Definition Qtrunc (q : Q) : Z :=
  if Qle_bool 0 q then Qfloor q else Qceiling q.

(** Storing a number into a [Uint8Array]. *)
Definition ToUint8_number (x : number) : byte :=
  match x with
  | Fin q => ToUint8 (Qtrunc q)
  | _ => x00
  end.

(** [while (s.length < 12) s = '0' + s]. *)
Fixpoint pad_loop (fuel : nat) (s : string) : string :=
  match fuel with
  | 0 => s
  | S f => if String.length s <? 12 then pad_loop f (String "0" s) else s
  end.

(** ** The clock and the random source *)

Record World := { clock : Z; entropy : nat -> byte }.

(** [(new Date()).getTime()]. *)
Definition Date_getTime (w : World) : Z := clock w.

(** [nacl.randomBytes(n)] draws the next [n] bytes of the source. *)
Definition nacl_randomBytes (n : nat) (w : World) : bytes * World :=
  (map (entropy w) (seq 0 n),
   {| clock := clock w; entropy := fun i => entropy w (n + i) |}).

(** Length in bytes of the seed that is synced between devices. *)
Definition SEED_SIZE : nat := 32.

Definition getSeed (w : World) : bytes * World := nacl_randomBytes SEED_SIZE w.

(** ** Results of the module *)

Record KeyBundle := {
  publicKey : bytes;
  secretKey : bytes;
  fingerprint : string;
  secretboxKey : bytes
}.

Record Envelope := { nonce : bytes; ciphertext : bytes }.

(** ** Stand-ins for the primitives, used to run the module on examples *)

Module Toy.

Definition hash (m : bytes) : bytes :=
  replicate 64 (foldr byte_xor (ToUint8 (Z.of_nat (length m))) m).

Definition keypair (seed : bytes) : bytes * bytes := (seed, seed ++ seed).

Definition tag (n k : bytes) : bytes :=
  take 16 (zip_with byte_xor n k ++ replicate 16 x00).

Definition secretbox (m n k : bytes) : bytes := tag n k ++ m.

Definition bytes_eqb (a b : bytes) : bool :=
  bool_decide (map Byte.to_N a = map Byte.to_N b).

Definition secretbox_open (c n k : bytes) : option bytes :=
  if (16 <=? length c) && bytes_eqb (take 16 c) (tag n k)
  then Some (drop 16 c) else None.

Definition world : World :=
  {| clock := 1500000000000;
     entropy := fun i => ToUint8 (Z.of_nat (7 * i + 3)) |}.

End Toy.

(** ** The record utilities *)

Module RecordUtil.

(** *** Values and records *)

(** The values of record fields.  An object is the map of its own
    enumerable properties; its prototype is that of a plain object, is not
    part of the value, and a change of it is not recorded. *)
#[warnings="-register-all"]
Inductive jsval :=
| JUndefined
| JNull
| JBool (b : bool)
| JNum (x : number)
| JStr (s : string)
| JObj (props : gmap string jsval).

Abbreviation obj := (gmap string jsval).

(** A sync record as a JS object: its action, the name of its type under
    [objectData], the data object under that name (if any), its id, and its
    other properties.  The name of the type is not the name of another
    property of the record. *)
Record SyncRecord := {
  action : Z;
  objectData : string;
  objectId : list Z;
  data : option obj;
  rest : obj
}.

Definition Not_an_object : exn :=
  TypeError "Cannot convert undefined or null to object".
Definition Not_a_function : exn := TypeError "object.hasOwnProperty is not a function".
Definition Cannot_read_property : exn := TypeError "Cannot read properties of undefined".
Definition Cannot_convert_to_primitive : exn :=
  TypeError "Cannot convert object to primitive value".
Definition Required_args : exn :=
  Error "type, isValidRecord, mapUpdateToCreate are required args".
Definition Record_missing (type : string) : exn := Error ("Record missing " +:+ type).
Definition Missing_UPDATE_syncRecord : exn := Error "Missing UPDATE syncRecord.".
Definition Invalid_record_action : exn := Error "Invalid record action".
Definition Invalid_record_action_of (a : Z) : exn :=
  Error ("Invalid record action: " +:+ pretty a).
Definition Missing_syncRecord : exn := Error "Missing syncRecord JS object.".
Definition Mismatched_objectData : exn :=
  Error "Records with same objectId have mismatched objectData!".

(** [!!v]. *)
Definition truthy (v : jsval) : bool :=
  match v with
  | JUndefined | JNull => false
  | JBool b => b
  | JNum (Fin q) => negb (Qeq_bool q 0)
  | JNum NaN => false
  | JNum _ => true
  | JStr s => negb (String.eqb s "")
  | JObj _ => true
  end.

(** [o[k]] on an object. *)
Definition prop (o : obj) (k : string) : jsval := default JUndefined (o !! k).

(** [v.k] for the names [location] and [customTitle], which no primitive
    value has: reading them off [undefined] or [null] throws. *)
Definition get (v : jsval) (k : string) : result jsval :=
  match v with
  | JObj o => OK (prop o k)
  | JUndefined | JNull => Throw Cannot_read_property
  | _ => OK JUndefined
  end.

(** [record[type]]: a record carries one data object, under the name in
    its [objectData]. *)
Definition type_data (record : SyncRecord) (type : string) : option obj :=
  if String.eqb (objectData record) type then data record else None.

(** [Object.keys(v)] where [v] is an object or missing; the order of the
    keys is not that of JavaScript. *)
Definition Object_keys (v : option obj) : result (list string) :=
  match v with
  | Some o => OK (map_to_list o).*1
  | None => Throw Not_an_object
  end.

(** The own enumerable properties that [Object.assign] copies from a value:
    those of an object, the characters of a string, none otherwise. *)
Definition own_props (v : jsval) : obj :=
  match v with
  | JObj o => o
  | JStr s =>
      list_to_map
        (imap (fun i c => (pretty i, JStr (String c EmptyString)))
              (list_ascii_of_string s))
  | _ => ∅
  end.

(** [Object.assign(target, source)]: the properties of [source] win; a
    source property named [__proto__] is not copied. *)
Definition assign (target source : obj) : obj :=
  delete "__proto__" source ∪ target.

Section Functions.

(** [proto.actions] of [constants/proto]. *)
Variables CREATE UPDATE DELETE : Z.
(** [valueEquals] of [lib/valueEquals]. *)
Variable valueEquals : jsval -> jsval -> bool.
(** What [lodash.merge] leaves in its first argument. *)
Variable merge : SyncRecord -> SyncRecord -> SyncRecord.
(** Whether [Number(s) > 0] for a string [s]. *)
Variable string_gt_0 : string -> bool.

(** [v > 0]. *)
Definition gt_0 (v : jsval) : result bool :=
  match v with
  | JNum x => OK (num_gt x (num_of_Z 0))
  | JBool b => OK b
  | JStr s => OK (string_gt_0 s)
  | JUndefined | JNull => OK false
  | JObj o =>
      if bool_decide ("toString" ∈ dom o) then Throw Cannot_convert_to_primitive
      else OK false
  end.

(** The record with [action] and the data object replaced, as
    [Object.assign(record, {action, [type]: props})] leaves it. *)
Definition with_action_data (record : SyncRecord) (a : Z) (props : obj)
    : SyncRecord :=
  {| action := a; objectData := objectData record; objectId := objectId record;
     data := Some props; rest := rest record |}.

Definition CreateFromUpdate (type : string)
    (isValidRecord : SyncRecord -> result bool)
    (mapUpdateToCreate : obj -> result obj)
    : result (SyncRecord -> result (option SyncRecord)) :=
  if String.eqb type "" then Throw Required_args
  else OK (fun record =>
    match type_data record type with
    | None => Throw (Record_missing type)
    | Some props =>
        valid <- isValidRecord record ;;
        if negb valid then OK None
        else
          resolvedTypeProps <- mapUpdateToCreate props ;;
          OK (Some (with_action_data record CREATE resolvedTypeProps))
    end).

(** [t1] and [t2] are the two readings of [Date.now()]. *)
Definition createSitePropsFromUpdateSite (t1 t2 : Z) (site : jsval) : result obj :=
  location <- get site "location" ;;
  let defaultProps : obj :=
    <["title" := JStr ""]>
      (<["customTitle" := location]>
         (<["lastAccessedTime" := JNum (num_of_Z t1)]>
            (<["creationTime" := JNum (num_of_Z t2)]> ∅))) in
  OK (assign (assign ∅ defaultProps) (own_props site)).

(** [record.bookmark.site && (site.location || (site.customTitle &&
    record.bookmark.folderId && record.bookmark.folderId > 0))], as a
    truth value. *)
Definition isValidBookmark (record : SyncRecord) : result bool :=
  match type_data record "bookmark" with
  | None => Throw Cannot_read_property
  | Some bookmark =>
      let site := prop bookmark "site" in
      if negb (truthy site) then OK false
      else
        location <- get site "location" ;;
        if truthy location then OK true
        else
          customTitle <- get site "customTitle" ;;
          if negb (truthy customTitle) then OK false
          else if negb (truthy (prop bookmark "folderId")) then OK false
          else gt_0 (prop bookmark "folderId")
  end.

Definition mapBookmark (t1 t2 : Z) (bookmark : obj) : result obj :=
  folder <- (if truthy (prop bookmark "folderId")
             then gt_0 (prop bookmark "folderId") else OK false) ;;
  if folder then OK (assign (<["isFolder" := JBool true]> ∅) bookmark)
  else
    let defaultProps : obj := <["isFolder" := JBool false]> ∅ in
    site <- createSitePropsFromUpdateSite t1 t2 (prop bookmark "site") ;;
    OK (assign (assign (assign ∅ defaultProps) bookmark)
               (<["site" := JObj site]> ∅)).

Definition createFromUpdateBookmark (t1 t2 : Z) :=
  CreateFromUpdate "bookmark" isValidBookmark (mapBookmark t1 t2).

Definition isValidHistorySite (record : SyncRecord) : result bool :=
  match type_data record "historySite" with
  | None => Throw Cannot_read_property
  | Some historySite => OK (truthy (prop historySite "location"))
  end.

Definition createFromUpdateHistorySite (t1 t2 : Z) :=
  CreateFromUpdate "historySite" isValidHistorySite
    (fun site => createSitePropsFromUpdateSite t1 t2 (JObj site)).

Definition isValidSiteSetting (record : SyncRecord) : result bool :=
  match type_data record "siteSetting" with
  | None => Throw Cannot_read_property
  | Some siteSetting => OK (truthy (prop siteSetting "hostPattern"))
  end.

Definition createFromUpdateSiteSetting :=
  CreateFromUpdate "siteSetting" isValidSiteSetting (fun siteSetting => OK siteSetting).

Definition createFromUpdate (record : option SyncRecord) (t1 t2 : Z)
    : result (option SyncRecord) :=
  match record with
  | None => Throw Missing_UPDATE_syncRecord
  | Some record =>
      if negb (action record =? UPDATE)%Z then Throw Missing_UPDATE_syncRecord
      else if String.eqb (objectData record) "bookmark" then
        f <- createFromUpdateBookmark t1 t2 ;; f record
      else if String.eqb (objectData record) "historySite" then
        f <- createFromUpdateHistorySite t1 t2 ;; f record
      else if String.eqb (objectData record) "siteSetting" then
        f <- createFromUpdateSiteSetting ;; f record
      else OK None
  end.

(** The step of [fields.reduce((a, x) => ..., {})].  An own property of
    [object] named [hasOwnProperty] hides the method; [a[x] = v] for the
    name [__proto__] adds no own property. *)
Definition pickFields_step (object : obj) (a : result obj) (x : string)
    : result obj :=
  a <- a ;;
  if bool_decide ("hasOwnProperty" ∈ dom object) then Throw Not_a_function
  else match object !! x with
       | Some v => OK (if String.eqb x "__proto__" then a else <[x := v]> a)
       | None => OK a
       end.

Definition pickFields (object : obj) (fields : list string) : result obj :=
  fold_left (pickFields_step object) fields (OK ∅).

Definition commonFields : list string := ["hostPattern"].

Definition includes (l : list string) (x : string) : bool := bool_decide (x ∈ l).

Definition resolveRecordWithObject (record existingObject : SyncRecord)
    : result (option SyncRecord) :=
  let type := objectData record in
  recordFields <- Object_keys (type_data record type) ;;
  existingFields <- Object_keys (type_data existingObject type) ;;
  let recordData := default ∅ (type_data record type) in
  let existingData := default ∅ (type_data existingObject type) in
  resolveField <-
    (if (action record =? UPDATE)%Z then
       OK (fun field =>
             negb (includes commonFields field)
             && (negb (includes existingFields field)
                 || negb (valueEquals (prop existingData field) (prop recordData field))))
     else if (action record =? DELETE)%Z then
       OK (fun field =>
             negb (includes commonFields field) && includes existingFields field)
     else Throw Invalid_record_action) ;;
  let resolvedFields := List.filter resolveField recordFields in
  resolvedData <- pickFields recordData resolvedFields ;;
  if length (map_to_list resolvedData) =? 0 then OK None
  else
    let resolvedData :=
      fold_left
        (fun (d : obj) field =>
           if negb (includes recordFields field) then d
           else <[field := prop recordData field]> d)
        commonFields resolvedData in
    OK (Some {| action := action record; objectData := objectData record;
                objectId := objectId record; data := Some resolvedData;
                rest := rest record |}).

Definition resolve (record existingObject : option SyncRecord) (t1 t2 : Z)
    : result (option SyncRecord) :=
  match record with
  | None => Throw Missing_syncRecord
  | Some record =>
      if (action record =? CREATE)%Z then
        OK (match existingObject with
            | Some _ => None
            | None => Some record
            end)
      else if (action record =? UPDATE)%Z then
        match existingObject with
        | Some existingObject => resolveRecordWithObject record existingObject
        | None => createFromUpdate (Some record) t1 t2
        end
      else if (action record =? DELETE)%Z then
        match existingObject with
        | Some existingObject => resolveRecordWithObject record existingObject
        | None => OK None
        end
      else Throw (Invalid_record_action_of (action record))
  end.

Definition mergeRecord (record1 record2 : SyncRecord) : result SyncRecord :=
  if negb (String.eqb (objectData record1) (objectData record2))
  then Throw Mismatched_objectData
  else OK (merge record1 record2).


(** The loop of [mergeRecords] works on the records of the input as
    objects: [merge] changes its first argument in place, and an item of
    [outputList] holds a reference to a record of the input.  A reference is
    the index of the record in the input. *)
Record MergeState := {
  records : list SyncRecord;
  idsAndIndices : gmap (list Z) nat;
  outputList : list (nat * option SyncRecord)
}.

Definition mergeRecords_step (objects : list (option SyncRecord)) (n : nat)
    (st : MergeState) : result MergeState :=
  match records st !! n, objects !! n with
  | Some record, Some object =>
      let id := objectId record in
      match idsAndIndices st !! id with
      | Some previousIndex =>
          match records st !! previousIndex with
          | Some previousRecord =>
              mergedRecord <- mergeRecord previousRecord record ;;
              OK {| records := <[previousIndex := mergedRecord]> (records st);
                    idsAndIndices := idsAndIndices st;
                    outputList :=
                      <[previousIndex := (previousIndex, object)]> (outputList st) |}
          | None => Throw Cannot_read_property
          end
      | None =>
          OK {| records := records st;
                idsAndIndices := <[id := length (outputList st)]> (idsAndIndices st);
                outputList := outputList st ++ [(n, object)] |}
      end
  | _, _ => OK st
  end.

Fixpoint for_range_result {St : Type} (i count : nat)
    (body : nat -> St -> result St) (s : St) : result St :=
  match count with
  | 0 => OK s
  | S c => s' <- body i s ;; for_range_result (S i) c body s'
  end.

Definition mergeRecords_loop (recordsAndObjects : list (SyncRecord * option SyncRecord))
    : result MergeState :=
  for_range_result 0 (length recordsAndObjects)
    (mergeRecords_step (map snd recordsAndObjects))
    {| records := map fst recordsAndObjects; idsAndIndices := ∅; outputList := [] |}.

(** The items of a list of references and objects, read in a store. *)
Definition read_items (store : list SyncRecord)
    (items : list (nat * option SyncRecord)) : list (SyncRecord * option SyncRecord) :=
  omap (fun item => (fun r => (r, snd item)) <$> store !! fst item) items.

(** [mergeRecords], with the records read when it returns. *)
Definition mergeRecords (recordsAndObjects : list (SyncRecord * option SyncRecord))
    : result (list (SyncRecord * option SyncRecord)) :=
  st <- mergeRecords_loop recordsAndObjects ;;
  OK (read_items (records st) (outputList st)).

(** [array.forEach((x) => ...)] with a body that may throw. *)
Fixpoint forEach_result {A St : Type} (i : nat) (array : list A)
    (body : nat -> A -> St -> result St) (s : St) : result St :=
  match array with
  | [] => OK s
  | x :: array' => s' <- body i x s ;; forEach_result (S i) array' body s'
  end.

(** An item of [resolvedRecords]: a reference to a record of the input, or
    a new record. *)
Definition read (store : list SyncRecord) (item : nat + SyncRecord)
    : option SyncRecord :=
  match item with
  | inl ref => store !! ref
  | inr record => Some record
  end.

(** The body of the [forEach] of [resolveRecords].  Without an existing
    object, what [resolve] returns is its record itself, which
    [createFromUpdate] has changed in place; with one, it is a new object.
    [times n] are the readings of [Date.now()] at item [n]. *)
Definition resolveRecords_step (times : nat -> Z * Z) (n : nat)
    (item : nat * option SyncRecord)
    (st : list SyncRecord * list (nat + SyncRecord))
    : result (list SyncRecord * list (nat + SyncRecord)) :=
  let '(ref, existingObject) := item in
  let '(store, resolvedRecords) := st in
  resolved <- resolve (store !! ref) existingObject (times n).1 (times n).2 ;;
  match resolved, existingObject with
  | None, _ => OK (store, resolvedRecords)
  | Some resolved, None =>
      OK (<[ref := resolved]> store, resolvedRecords ++ [inl ref])
  | Some resolved, Some _ => OK (store, resolvedRecords ++ [inr resolved])
  end.

(** [resolveRecords], with the records read when it returns. *)
Definition resolveRecords (times : nat -> Z * Z)
    (recordsAndExistingObjects : list (SyncRecord * option SyncRecord))
    : result (list SyncRecord) :=
  merged <- mergeRecords_loop recordsAndExistingObjects ;;
  st <- forEach_result 0 (outputList merged) (resolveRecords_step times)
          (records merged, []) ;;
  OK (omap (read st.1) st.2).

(** *** Definitions for the statements *)

(** An object whose properties are not named like the method
    [hasOwnProperty] or like [__proto__]. *)
Definition plain (o : obj) : Prop :=
  ("hasOwnProperty" ∉ dom o) /\ ("__proto__" ∉ dom o).

(** The record with its data object replaced, as
    [Object.assign({}, record, {[type]: props})] makes it. *)
Definition with_data (record : SyncRecord) (props : obj) : SyncRecord :=
  {| action := action record; objectData := objectData record;
     objectId := objectId record; data := Some props; rest := rest record |}.

(** The part of the data of a record that [resolveRecordWithObject] keeps:
    the fields picked by [keep], and [hostPattern]. *)
Definition resolved_data (keep : string * jsval -> Prop)
    `{!forall kv, Decision (keep kv)} (rd : obj) : obj :=
  filter keep rd ∪ filter (fun kv => kv.1 = "hostPattern") rd.

(** The fields that count for an update and for a deletion. *)
Definition update_keep (ed : obj) (kv : string * jsval) : Prop :=
  kv.1 <> "hostPattern"
  /\ (kv.1 ∉ dom ed \/ valueEquals (prop ed kv.1) kv.2 = false).

Definition delete_keep (ed : obj) (kv : string * jsval) : Prop :=
  kv.1 <> "hostPattern" /\ kv.1 ∈ dom ed.

#[export] Instance update_keep_dec ed kv : Decision (update_keep ed kv).
Proof. unfold update_keep. apply _. Defined.

#[export] Instance delete_keep_dec ed kv : Decision (delete_keep ed kv).
Proof. unfold delete_keep. apply _. Defined.

(** The default properties of a site whose location is [location], at the
    clock readings [t1] and [t2]. *)
Definition site_defaults (location : jsval) (t1 t2 : Z) : obj :=
  <["title" := JStr ""]>
    (<["customTitle" := location]>
       (<["lastAccessedTime" := JNum (num_of_Z t1)]>
          (<["creationTime" := JNum (num_of_Z t2)]> ∅))).

(** [v.k] as a value, for a [v] that is not read when undefined or null. *)
Definition field (v : jsval) (k : string) : jsval :=
  match v with
  | JObj o => prop o k
  | _ => JUndefined
  end.

(** A folder id that is a number or missing, and whether it is above 0. *)
Definition number_or_missing (v : jsval) : Prop :=
  match v with
  | JNum _ | JUndefined => True
  | _ => False
  end.

Definition positive_number (v : jsval) : bool :=
  match v with
  | JNum x => num_gt x (num_of_Z 0)
  | _ => false
  end.

(** The ids of the records of a list of items. *)
Definition ids (input : list (SyncRecord * option SyncRecord)) : list (list Z) :=
  (fun item => objectId item.1) <$> input.

(** The id of the record of item [n]. *)
Definition id_at (input : list (SyncRecord * option SyncRecord)) (n : nat)
    : option (list Z) :=
  (fun item => objectId item.1) <$> input !! n.

(** The state of the loop after [k] items whose ids differ: nothing is
    merged, each item is in the output at its own index. *)
Definition copied (input : list (SyncRecord * option SyncRecord)) (k : nat)
    (st : MergeState) : Prop :=
  records st = map fst input
  /\ outputList st = imap (fun i item => (i, item.2)) (take k input)
  /\ forall id i, idsAndIndices st !! id = Some i <-> i < k /\ id_at input i = Some id.

(** What the loop of [mergeRecords] keeps after [n] items. *)
Definition merge_invariant (input : list (SyncRecord * option SyncRecord))
    (n : nat) (st : MergeState) : Prop :=
  length (records st) = length input
  /\ (forall j, n <= j -> records st !! j = input.*1 !! j)
  /\ dom (idsAndIndices st) = list_to_set (ids (take n input))
  /\ length (outputList st) = size (dom (idsAndIndices st))
  /\ (forall id i, idsAndIndices st !! id = Some i -> i < length (outputList st))
  /\ length (outputList st) <= n
  /\ Forall (fun item : nat * option SyncRecord => item.1 < length input)
            (outputList st).

(** Each item resolved by itself, in order; the results that are not null
    are kept. *)
Fixpoint resolve_each (times : nat -> Z * Z) (i : nat)
    (items : list (SyncRecord * option SyncRecord)) : result (list SyncRecord) :=
  match items with
  | [] => OK []
  | (record, existingObject) :: items' =>
      resolved <- resolve (Some record) existingObject (times i).1 (times i).2 ;;
      others <- resolve_each times (S i) items' ;;
      OK (match resolved with
          | Some resolved => resolved :: others
          | None => others
          end)
  end.

End Functions.

End RecordUtil.

(** ** Stand-ins for the code that the record utilities require, and
    records to run them on *)

Module ToyRecords.

Import RecordUtil.

Definition CREATE : Z := 0.
Definition UPDATE : Z := 1.
Definition DELETE : Z := 2.

Definition valueEquals (a b : jsval) : bool :=
  match a, b with
  | JUndefined, JUndefined | JNull, JNull => true
  | JBool x, JBool y => Bool.eqb x y
  | JNum (Fin x), JNum (Fin y) => Qeq_bool x y
  | JNum PosInf, JNum PosInf | JNum NegInf, JNum NegInf => true
  | JStr x, JStr y => String.eqb x y
  | _, _ => false
  end.

Definition merge (record1 record2 : SyncRecord) : SyncRecord :=
  {| action := action record2;
     objectData := objectData record2;
     objectId := objectId record2;
     data := match data record1, data record2 with
             | Some d1, Some d2 => Some (d2 ∪ d1)
             | d1, None => d1
             | None, d2 => d2
             end;
     rest := rest record2 ∪ rest record1 |}.

Definition string_gt_0 (s : string) : bool := false.

Definition times (n : nat) : Z * Z := (1000 + Z.of_nat n, 1001 + Z.of_nat n)%Z.

Definition site (a : Z) (id : Z) (props : obj) : SyncRecord :=
  {| action := a; objectData := "historySite"; objectId := [id]; data := Some props;
     rest := {["deviceId" := JNum (num_of_Z 7)]} |}.

Definition visited : obj :=
  {["location" := JStr "https://a.example"; "title" := JStr "A"]}.

Definition revisited : obj :=
  {["location" := JStr "https://a.example"; "title" := JStr "B";
    "lastAccessedTime" := JNum (num_of_Z 5)]}.

Definition setting : SyncRecord :=
  {| action := UPDATE; objectData := "siteSetting"; objectId := [3%Z];
     data := Some {["hostPattern" := JStr "https://a.example"; "zoomLevel" := JNum (num_of_Z 2)]};
     rest := ∅ |}.

Definition folder : obj :=
  {["folderId" := JNum (num_of_Z 4); "site" := JObj {["customTitle" := JStr "News"]}]}.

Definition bookmark_of (props : obj) : SyncRecord :=
  {| action := UPDATE; objectData := "bookmark"; objectId := [5%Z]; data := Some props;
     rest := ∅ |}.

End ToyRecords.

(** ** The module *)

Section Crypto.

(** [nacl.hash], SHA-512. *)
Variable nacl_hash : bytes -> bytes.
(** The key pair computed by [nacl.sign.keyPair.fromSeed]. *)
Variable crypto_sign_keypair : bytes -> bytes * bytes.
(** [nacl.secretbox] and [nacl.secretbox.open] on message (or box), nonce
    and key, after their argument checks. *)
Variable crypto_secretbox : bytes -> bytes -> bytes -> bytes.
Variable crypto_secretbox_open : bytes -> bytes -> bytes -> option bytes.

Definition hmac (message key : value) : result bytes :=
  match message, key with
  | VUint8Array message, VUint8Array key =>
      let buf := replicate (BLOCK_SIZE + max HASH_SIZE (length message)) x00 in
      let key := if BLOCK_SIZE <? length key then nacl_hash key else key in
      let buf := for_range 0 BLOCK_SIZE (store x36) buf in
      let buf := for_range 0 (length key) (xor_at key) buf in
      buf <- typed_set buf message BLOCK_SIZE ;;
      let innerHash := nacl_hash (subarray0 buf (BLOCK_SIZE + length message)) in
      let buf := for_range 0 BLOCK_SIZE (store x5c) buf in
      let buf := for_range 0 (length key) (xor_at key) buf in
      buf <- typed_set buf innerHash BLOCK_SIZE ;;
      OK (nacl_hash (subarray0 buf (BLOCK_SIZE + length innerHash)))
  | _, _ => Throw Inputs_must_be_Uint8Arrays
  end.

Definition hashLength : Z := 512 / 8.

(** The loop of the expand step, from counter [i], with [prev] the array
    [t[i - 1]] and [okm] the output so far; arrays of numbers. *)
Fixpoint expand_loop (prk : bytes) (info : list Z) (count : nat) (i : Z)
    (prev okm : list Z) : result (list Z) :=
  match count with
  | 0 => OK okm
  | S c =>
      let input := prev ++ info ++ [i] in
      h <- hmac (VUint8Array (map ToUint8 input)) (VUint8Array prk) ;;
      let ti := map byte_to_Z h in
      expand_loop prk info c (i + 1) ti (okm ++ ti)
  end.

Definition getHKDF (ikm : value) (info : list Z) (extractLen salt : value)
    : result bytes :=
  match extractLen with
  | VNumber len =>
      if num_lt len (num_of_Z 0) || num_gt len (num_of_Z (hashLength * 255))
      then Throw Invalid_extract_length
      else
        let salt :=
          match salt with
          | VUint8Array _ => salt
          | _ => VUint8Array (replicate (Z.to_nat hashLength) x00)
          end in
        prk <- hmac ikm salt ;;
        match len with
        | Fin q =>
            let n := Qceiling (q / inject_Z hashLength) in
            okm <- expand_loop prk info (Z.to_nat n) 1 [] [] ;;
            OK (map ToUint8 (take (Z.to_nat (Qtrunc q)) okm))
        | _ => Throw Invalid_array_length
        end
  | _ => Throw Invalid_extract_length
  end.

Definition HKDF_SALT : bytes :=
  map ToUint8
    [72; 203; 156; 43; 64; 229; 225; 127; 214; 158; 50; 29; 130; 186; 182;
     207; 6; 108; 47; 254; 245; 71; 198; 109; 44; 108; 32; 193; 221; 126;
     119; 143; 112; 113; 87; 184; 239; 231; 230; 234; 28; 135; 54; 42; 9;
     243; 39; 30; 179; 147; 194; 211; 212; 239; 225; 52; 192; 219; 145; 40;
     95; 19; 142; 98]%Z.

Definition crypto_sign_SEEDBYTES : Z := 32.
Definition secretbox_keyLength : Z := 32.
Definition secretbox_nonceLength : nat := 24.

Definition nacl_sign_keyPair_fromSeed (seed : bytes) : result (bytes * bytes) :=
  if length seed =? 32 then OK (crypto_sign_keypair seed)
  else Throw Nacl_bad_seed_size.

(** The body of the [forEach] that builds the fingerprint. *)
Definition fingerprint_step (fp : string) (b : byte) : string :=
  let char := Number_toString16 (byte_to_Z b) in
  let char := if String.length char =? 1 then String "0" char else char in
  String.append fp char.

Definition deriveKeys (seed : value) : result KeyBundle :=
  match seed with
  | VUint8Array _ =>
      output <- getHKDF seed [0%Z] (VNumber (num_of_Z crypto_sign_SEEDBYTES))
                  (VUint8Array HKDF_SALT) ;;
      kp <- nacl_sign_keyPair_fromSeed output ;;
      let fp := fold_left fingerprint_step (fst kp) EmptyString in
      sbk <- getHKDF seed [1%Z] (VNumber (num_of_Z secretbox_keyLength))
               (VUint8Array HKDF_SALT) ;;
      OK {| publicKey := fst kp; secretKey := snd kp;
            fingerprint := fp; secretboxKey := sbk |}
  | _ => Throw Seed_must_be_Uint8Array
  end.

(** The first guard of [getNonce]: not a number, below 0 or above 255. *)
Definition bad_device_id (deviceId : value) : bool :=
  match deviceId with
  | VNumber d => num_lt d (num_of_Z 0) || num_gt d (num_of_Z 255)
  | _ => true
  end.

(** The integer that a number leaves in a [Uint8Array] element when it lies
    between 0 and 255: its integer part, and 0 for NaN. *)
Definition integer_part (x : number) : Z :=
  match x with
  | Fin q => Qfloor q
  | _ => 0%Z
  end.

(** The body of the loop that writes the timestamp. *)
Definition timestamp_step (hexTime : string) (i : nat) (nonce : bytes) : bytes :=
  <[5 + i := ToUint8_number
               (Number_0x (String.get (2 * i) hexTime)
                          (String.get (2 * i + 1) hexTime))]> nonce.

Definition getNonce (deviceId : value) (w : World) : result bytes * World :=
  match deviceId with
  | VNumber d =>
      if num_lt d (num_of_Z 0) || num_gt d (num_of_Z 255)
      then (Throw Invalid_device_ID, w)
      else
        let nonce := replicate secretbox_nonceLength x00 in
        let time := Date_getTime w in
        if (time >? Z.pow 256 6)%Z then (Throw Timestamp_too_far, w)
        else
          let nonce := <[0 := ToUint8_number d]> nonce in
          let (rnd, w) := nacl_randomBytes 4 w in
          match typed_set nonce rnd 1 with
          | Throw e => (Throw e, w)
          | OK nonce =>
              let hexTime := pad_loop 12 (Number_toString16 time) in
              (OK (for_range 0 6 (timestamp_step hexTime) nonce), w)
          end
  | _ => (Throw Invalid_device_ID, w)
  end.

Definition nacl_secretbox (msg : value) (nonce : bytes) (key : value)
    : result bytes :=
  match msg, key with
  | VUint8Array m, VUint8Array k =>
      if negb (length k =? 32) then Throw Nacl_bad_key_size
      else if negb (length nonce =? 24) then Throw Nacl_bad_nonce_size
      else OK (crypto_secretbox m nonce k)
  | _, _ => Throw Nacl_unexpected_type
  end.

(** [nacl.secretbox.open] returns [false] when the box does not verify. *)
Definition nacl_secretbox_open (box nonce key : value) : result value :=
  match box, nonce, key with
  | VUint8Array c, VUint8Array n, VUint8Array k =>
      if negb (length k =? 32) then Throw Nacl_bad_key_size
      else if negb (length n =? 24) then Throw Nacl_bad_nonce_size
      else OK (match crypto_secretbox_open c n k with
               | Some m => VUint8Array m
               | None => VBool false
               end)
  | _, _, _ => Throw Nacl_unexpected_type
  end.

Definition encrypt (message secretboxKey deviceId : value) (w : World)
    : result Envelope * World :=
  match getNonce deviceId w with
  | (Throw e, w) => (Throw e, w)
  | (OK nonce, w) =>
      (c <- nacl_secretbox message nonce secretboxKey ;;
       OK {| nonce := nonce; ciphertext := c |}, w)
  end.

Definition decrypt (ciphertext nonce secretboxKey : value) : result value :=
  nacl_secretbox_open ciphertext nonce secretboxKey.

(** ** Reference definitions, following the specification *)

(** The key, zero-padded to the block size and XORed with a block of [c]. *)
Definition xor_pad (c : byte) (key : bytes) : bytes :=
  zip_with byte_xor (replicate BLOCK_SIZE c)
    (key ++ replicate (BLOCK_SIZE - length key) x00).

Definition HMAC_ref (key message : bytes) : bytes :=
  let k := if BLOCK_SIZE <? length key then nacl_hash key else key in
  nacl_hash (xor_pad x5c k ++ nacl_hash (xor_pad x36 k ++ message)).

(** [T[0] = empty], [T[i] = HMAC(T[i-1] ++ info ++ [i], PRK)]. *)
Fixpoint HKDF_T (prk info : bytes) (i : nat) : bytes :=
  match i with
  | 0 => []
  | S j => HMAC_ref prk (HKDF_T prk info j ++ info ++ [ToUint8 (Z.of_nat i)])
  end.

(** The salt of the extract step: 64 zero bytes when none is supplied. *)
Definition salt_or_zeros (salt : value) : bytes :=
  match salt with
  | VUint8Array s => s
  | _ => replicate 64 x00
  end.

(** The least [n] with [extractLen <= 64 * n]. *)
Definition blocks (extractLen : nat) : nat := (extractLen + 63) / 64.

Definition HKDF_ref (salt ikm info : bytes) (extractLen : nat) : bytes :=
  let prk := HMAC_ref salt ikm in
  take extractLen
    (concat (map (HKDF_T prk info) (seq 1 (blocks extractLen)))).

(** The 48-bit big-endian encoding of [t]. *)
Definition be48 (t : Z) : bytes :=
  map (fun k => ToUint8 (t / 256 ^ k)) [5; 4; 3; 2; 1; 0]%Z.

(** A byte as two hexadecimal digits, and a byte sequence in lowercase
    hexadecimal. *)
Definition hex2 (b : byte) : string :=
  let n := Byte.to_N b in
  String (hex_digit (n / 16)) (String (hex_digit (n mod 16)) EmptyString).

Definition lowercase_hex (bs : bytes) : string :=
  foldr (fun b s => String.append (hex2 b) s) EmptyString bs.

(** The key bundle of a seed: the signing seed is the HKDF of the seed
    with info [0], the secretbox key the one with info [1], both of 32
    bytes under the protocol salt. *)
Definition derived_bundle (seed : bytes) : KeyBundle :=
  let signingSeed := HKDF_ref HKDF_SALT seed [x00] 32 in
  let kp := crypto_sign_keypair signingSeed in
  {| publicKey := fst kp;
     secretKey := snd kp;
     fingerprint := lowercase_hex (fst kp);
     secretboxKey := HKDF_ref HKDF_SALT seed [x01] 32 |}.

(** [w] hexadecimal digits of [n], most significant first. *)
Fixpoint fixed_hex (w : nat) (n : N) : list ascii :=
  match w with
  | 0 => []
  | S w' => fixed_hex w' (n / 16) ++ [hex_digit (n mod 16)]
  end.

Fixpoint string_forallb (p : ascii -> bool) (s : string) : bool :=
  match s with
  | EmptyString => true
  | String c s' => p c && string_forallb p s'
  end.

(** The integer that a big-endian byte sequence encodes. *)
Definition be_decode (bs : bytes) : Z :=
  fold_left (fun acc b => (acc * 256 + byte_to_Z b)%Z) bs 0%Z.

Definition is_lower_hex (c : ascii) : bool :=
  let n := N_of_ascii c in
  ((48 <=? n)%N && (n <=? 57)%N) || ((97 <=? n)%N && (n <=? 102)%N).

(** Decoding of a string of pairs of hexadecimal digits. *)
Fixpoint decode_hex (s : string) : option bytes :=
  match s with
  | EmptyString => Some []
  | String a (String b rest) =>
      match hex_value a, hex_value b, decode_hex rest with
      | Some h, Some l, Some bs => Some (u8_of_N (16 * h + l) :: bs)
      | _, _, _ => None
      end
  | String _ EmptyString => None
  end.

(** ** Facts about bytes and loops *)

Lemma byte_xor_x00_r (c : byte) : byte_xor c x00 = c.
Proof. destruct c; reflexivity. Qed.

Lemma ToUint8_byte_to_Z (b : byte) : ToUint8 (byte_to_Z b) = b.
Proof. destruct b; reflexivity. Qed.

Lemma store_loop (c : byte) (count : nat) :
  forall (pre rest : bytes),
    count <= length rest ->
    for_range (length pre) count (store c) (pre ++ rest)
    = pre ++ replicate count c ++ drop count rest.
Proof.
  induction count as [|count IH]; intros pre rest Hlen; simpl.
  - by rewrite drop_0.
  - destruct rest as [|r rest]; simpl in Hlen; [lia|].
    unfold store at 2. rewrite insert_app_r_alt by lia.
    replace (length pre - length pre) with 0 by lia. simpl.
    replace (pre ++ c :: rest) with ((pre ++ [c]) ++ rest) by (by rewrite <- app_assoc).
    replace (S (length pre)) with (length (pre ++ [c])) by (rewrite length_app; simpl; lia).
    rewrite IH by lia. by rewrite <- app_assoc.
Qed.

Lemma xor_loop (todo : bytes) :
  forall (done pre rest : bytes),
    length pre = length done ->
    length todo <= length rest ->
    for_range (length done) (length todo) (xor_at (done ++ todo)) (pre ++ rest)
    = pre ++ zip_with byte_xor (take (length todo) rest) todo
          ++ drop (length todo) rest.
Proof.
  induction todo as [|k todo IH]; intros done pre rest Hpre Hlen; simpl.
  - by rewrite drop_0.
  - destruct rest as [|r rest]; simpl in Hlen; [lia|]. simpl.
    unfold xor_at at 2.
    rewrite lookup_app_r by lia. rewrite Hpre, Nat.sub_diag. simpl.
    rewrite lookup_app_r by lia. rewrite Nat.sub_diag. simpl.
    rewrite insert_app_r_alt by lia. rewrite Hpre, Nat.sub_diag. simpl.
    replace (done ++ k :: todo) with ((done ++ [k]) ++ todo) by (by rewrite <- app_assoc).
    replace (pre ++ byte_xor r k :: rest)
      with ((pre ++ [byte_xor r k]) ++ rest) by (by rewrite <- app_assoc).
    replace (S (length done)) with (length (done ++ [k])) by (rewrite length_app; simpl; lia).
    rewrite IH; [by rewrite <- app_assoc | rewrite !length_app; simpl; lia | lia].
Qed.

Lemma store_loop0 (c : byte) (count : nat) (buf : bytes) :
  count <= length buf ->
  for_range 0 count (store c) buf = replicate count c ++ drop count buf.
Proof. apply (store_loop c count [] buf). Qed.

Lemma xor_loop0 (key buf : bytes) :
  length key <= length buf ->
  for_range 0 (length key) (xor_at key) buf
  = zip_with byte_xor (take (length key) buf) key ++ drop (length key) buf.
Proof. apply (xor_loop key [] [] buf). reflexivity. Qed.

Lemma take_drop_replicate {A} (c : A) (k n : nat) (tail : list A) :
  k <= n ->
  take k (replicate n c ++ tail) = replicate k c /\
  drop k (replicate n c ++ tail) = replicate (n - k) c ++ tail.
Proof.
  intros Hk. split.
  - rewrite take_app_le by (rewrite length_replicate; lia).
    rewrite take_replicate. f_equal. lia.
  - rewrite drop_app_le by (rewrite length_replicate; lia).
    by rewrite drop_replicate.
Qed.

Lemma xor_pad_length (c : byte) (key : bytes) : length (xor_pad c key) = BLOCK_SIZE.
Proof.
  unfold xor_pad. rewrite length_zip_with, length_replicate, length_app, length_replicate.
  lia.
Qed.

(** One half of [hmac]: the block is filled with [c], XORed with the key and
    followed by [src]. *)
Lemma pad_phase (c : byte) (key src pre tail : bytes) :
  length pre = BLOCK_SIZE ->
  length key <= BLOCK_SIZE ->
  length src <= length tail ->
  typed_set
    (for_range 0 (length key) (xor_at key)
       (for_range 0 BLOCK_SIZE (store c) (pre ++ tail)))
    src BLOCK_SIZE
  = OK (xor_pad c key ++ src ++ drop (length src) tail).
Proof.
  intros Hpre Hkey Hsrc.
  rewrite store_loop0 by (rewrite length_app; lia).
  rewrite drop_app_length' by done.
  rewrite xor_loop0 by (rewrite length_app, length_replicate; lia).
  destruct (take_drop_replicate c (length key) BLOCK_SIZE tail Hkey) as [-> ->].
  assert (Hpad : zip_with byte_xor (replicate (length key) c) key
                 ++ replicate (BLOCK_SIZE - length key) c = xor_pad c key).
  { unfold xor_pad.
    replace (replicate BLOCK_SIZE c)
      with (replicate (length key) c ++ replicate (BLOCK_SIZE - length key) c)
      by (rewrite <- replicate_add; f_equal; lia).
    rewrite zip_with_app by (by rewrite length_replicate).
    by rewrite zip_with_replicate, byte_xor_x00_r. }
  rewrite app_assoc, Hpad.
  unfold typed_set.
  rewrite length_app, xor_pad_length.
  destruct (Nat.leb_spec (length src + BLOCK_SIZE) (BLOCK_SIZE + length tail)); [|lia].
  f_equal.
  pose proof (list_inserts_app_r src (xor_pad c key) tail 0) as Hins.
  rewrite xor_pad_length, Nat.add_0_r in Hins. rewrite Hins. f_equal.
  rewrite <- (take_drop (length src) tail) at 1.
  apply list_inserts_0_r. rewrite length_take. lia.
Qed.

Lemma subarray0_block (pad src rest : bytes) :
  length pad = BLOCK_SIZE ->
  subarray0 (pad ++ src ++ rest) (BLOCK_SIZE + length src) = pad ++ src.
Proof.
  intros Hpad. unfold subarray0.
  rewrite app_assoc. apply take_app_length'. rewrite length_app. lia.
Qed.

(** ** What the proofs rely on: SHA-512 returns 64 bytes *)

Hypothesis nacl_hash_length : forall m, length (nacl_hash m) = 64.

Lemma hmac_ref (message key : bytes) :
  hmac (VUint8Array message) (VUint8Array key) = OK (HMAC_ref key message).
Proof.
  unfold hmac, HMAC_ref.
  set (k := if BLOCK_SIZE <? length key then nacl_hash key else key).
  assert (Hk : length k <= BLOCK_SIZE).
  { subst k. destruct (Nat.ltb_spec BLOCK_SIZE (length key)); [|lia].
    rewrite nacl_hash_length. unfold BLOCK_SIZE. lia. }
  rewrite replicate_add.
  rewrite pad_phase; [|by rewrite length_replicate|done|rewrite length_replicate; lia].
  cbn [bind].
  rewrite subarray0_block by apply xor_pad_length.
  set (inner := nacl_hash (xor_pad x36 k ++ message)).
  assert (Hin : length inner = 64) by apply nacl_hash_length.
  rewrite pad_phase; [|apply xor_pad_length|done|].
  2:{ rewrite length_app, length_drop, length_replicate. unfold HASH_SIZE. lia. }
  cbn [bind].
  by rewrite subarray0_block by apply xor_pad_length.
Qed.

(** C7: on byte sequences [hmac(message, key)] is HMAC over the hash with a
    128-byte block: a key longer than 128 bytes is replaced by its hash, and
    the result is the hash of the key XORed with the 0x5c block followed by
    the hash of the key XORed with the 0x36 block followed by the message;
    it is 64 bytes long. *)
Theorem hmac_is_HMAC (message key : bytes) :
  hmac (VUint8Array message) (VUint8Array key)
  = OK (nacl_hash
          (xor_pad x5c (if 128 <? length key then nacl_hash key else key)
           ++ nacl_hash
                (xor_pad x36 (if 128 <? length key then nacl_hash key else key)
                 ++ message)))
  /\ (forall mac, hmac (VUint8Array message) (VUint8Array key) = OK mac ->
      length mac = 64).
Proof.
  split.
  - apply hmac_ref.
  - intros mac. rewrite hmac_ref. intros [= <-]. apply nacl_hash_length.
Qed.


(** *** Numbers *)

Lemma Qle_bool_inject_Z (a b : Z) :
  Qle_bool (inject_Z a) (inject_Z b) = (a <=? b)%Z.
Proof. unfold Qle_bool, inject_Z. simpl. by rewrite !Z.mul_1_r. Qed.

Lemma num_lt_of_Z (a b : Z) : num_lt (num_of_Z a) (num_of_Z b) = (a <? b)%Z.
Proof.
  unfold num_lt, num_of_Z. rewrite Qle_bool_inject_Z.
  destruct (Z.leb_spec b a), (Z.ltb_spec a b); simpl; lia.
Qed.

Lemma num_gt_of_Z (a b : Z) : num_gt (num_of_Z a) (num_of_Z b) = (b <? a)%Z.
Proof. apply num_lt_of_Z. Qed.

Lemma Qtrunc_inject_Z (z : Z) : Qtrunc (inject_Z z) = z.
Proof.
  unfold Qtrunc. destruct (Qle_bool 0 (inject_Z z)).
  - apply Qfloor_Z.
  - apply Qceiling_Z.
Qed.

Lemma Qceiling_div_hashLength (z : Z) :
  Qceiling (inject_Z z / inject_Z hashLength) = ((z + 63) / 64)%Z.
Proof.
  change hashLength with 64%Z.
  unfold Qceiling, Qfloor, Qdiv, Qmult, Qinv, Qopp, inject_Z.
  cbn [Qnum Qden]. rewrite Z.mul_1_r. change (Z.pos (1 * 64)) with 64%Z.
  pose proof (Z.div_mod (- z) 64 ltac:(lia)) as H1.
  pose proof (Z.mod_pos_bound (- z) 64 ltac:(lia)) as H2.
  pose proof (Z.div_mod (z + 63) 64 ltac:(lia)) as H3.
  pose proof (Z.mod_pos_bound (z + 63) 64 ltac:(lia)) as H4.
  lia.
Qed.

Lemma blocks_of_nat (L : nat) :
  Z.to_nat ((Z.of_nat L + 63) / 64) = blocks L.
Proof.
  unfold blocks.
  rewrite Z2Nat.inj_div by lia. rewrite Z2Nat.inj_add by lia.
  by rewrite Nat2Z.id.
Qed.

(** [blocks L] is the ceiling of [L / 64]. *)
Lemma blocks_ceiling (L : nat) :
  L <= 64 * blocks L /\ 64 * blocks L < L + 64.
Proof.
  unfold blocks.
  pose proof (Nat.div_mod (L + 63) 64 ltac:(lia)) as H1.
  pose proof (Nat.mod_upper_bound (L + 63) 64 ltac:(lia)) as H2.
  lia.
Qed.

(** *** HKDF *)

Lemma ToUint8_numbers (bs : bytes) : map ToUint8 (map byte_to_Z bs) = bs.
Proof.
  induction bs as [|b bs IH]; simpl; [done|].
  by rewrite ToUint8_byte_to_Z, IH.
Qed.

Lemma HKDF_T_length (prk info : bytes) (i : nat) :
  length (HKDF_T prk info (S i)) = 64.
Proof. simpl. unfold HMAC_ref. apply nacl_hash_length. Qed.

Lemma expand_loop_ref (prk : bytes) (info : list Z) (count : nat) :
  forall (j : nat) (okm : list Z),
    expand_loop prk info count (Z.of_nat (S j))
      (map byte_to_Z (HKDF_T prk (map ToUint8 info) j)) okm
    = OK (okm ++ map byte_to_Z
                   (concat (map (HKDF_T prk (map ToUint8 info)) (seq (S j) count)))).
Proof.
  induction count as [|count IH]; intros j okm.
  - simpl. by rewrite app_nil_r.
  - cbn [expand_loop].
    rewrite !map_app, ToUint8_numbers. cbn [map].
    rewrite hmac_ref. cbn [bind].
    change (HMAC_ref prk
              (HKDF_T prk (map ToUint8 info) j ++ map ToUint8 info
               ++ [ToUint8 (Z.of_nat (S j))]))
      with (HKDF_T prk (map ToUint8 info) (S j)).
    replace (Z.of_nat (S j) + 1)%Z with (Z.of_nat (S (S j))) by lia.
    rewrite IH. cbn [seq map concat]. by rewrite map_app, app_assoc.
Qed.

Lemma concat_T_length (prk info : bytes) (n j : nat) :
  length (concat (map (HKDF_T prk info) (seq (S j) n))) = 64 * n.
Proof.
  revert j. induction n as [|n IH]; intros j; [done|].
  cbn [seq map concat]. rewrite length_app, HKDF_T_length, IH. lia.
Qed.

Lemma getHKDF_ref (ikm : bytes) (info : list Z) (L : nat) (salt : value) :
  L <= 255 * 64 ->
  getHKDF (VUint8Array ikm) info (VNumber (num_of_Z (Z.of_nat L))) salt
  = OK (HKDF_ref (salt_or_zeros salt) ikm (map ToUint8 info) L).
Proof.
  intros HL. unfold getHKDF.
  rewrite num_lt_of_Z, num_gt_of_Z.
  destruct (Z.ltb_spec (Z.of_nat L) 0); [lia|].
  destruct (Z.ltb_spec (hashLength * 255) (Z.of_nat L)) as [Hbig|_].
  { change (hashLength * 255)%Z with 16320%Z in Hbig. lia. }
  cbn [orb].
  assert (Hprk : hmac (VUint8Array ikm)
                   match salt with
                   | VUint8Array _ => salt
                   | _ => VUint8Array (replicate (Z.to_nat hashLength) x00)
                   end = OK (HMAC_ref (salt_or_zeros salt) ikm)).
  { destruct salt; apply hmac_ref. }
  rewrite Hprk. cbn [bind num_of_Z].
  rewrite Qceiling_div_hashLength, blocks_of_nat, Qtrunc_inject_Z, Nat2Z.id.
  pose proof (expand_loop_ref (HMAC_ref (salt_or_zeros salt) ikm) info (blocks L) 0 [])
    as Hloop.
  cbn [HKDF_T map app] in Hloop. change (Z.of_nat 1) with 1%Z in Hloop.
  rewrite Hloop. cbn [bind].
  unfold HKDF_ref. by rewrite <- firstn_map, ToUint8_numbers.
Qed.

Lemma HKDF_ref_length (salt ikm info : bytes) (L : nat) :
  length (HKDF_ref salt ikm info L) = L.
Proof.
  unfold HKDF_ref. rewrite length_take, concat_T_length.
  pose proof (blocks_ceiling L). lia.
Qed.

(** C8: for an extract length between 0 and 255 * 64, [getHKDF] is
    extract-then-expand: the pseudorandom key is the HMAC of the input keying
    material under the salt (64 zero bytes when the salt is not a byte
    array); [T 0] is empty and [T i] is the HMAC under that key of
    [T (i - 1)], the info and the byte [i]; the output is the first
    [extractLen] bytes of [T 1 ++ ... ++ T n], where [n] is the ceiling of
    [extractLen / 64]. *)
Theorem getHKDF_extract_then_expand
    (ikm : bytes) (info : list Z) (extractLen : nat) (salt : value) :
  extractLen <= 255 * 64 ->
  let salt' := match salt with VUint8Array s => s | _ => replicate 64 x00 end in
  let PRK := HMAC_ref salt' ikm in
  let T := HKDF_T PRK (map ToUint8 info) in
  let n := blocks extractLen in
  getHKDF (VUint8Array ikm) info (VNumber (num_of_Z (Z.of_nat extractLen))) salt
  = OK (take extractLen (concat (map T (seq 1 n))))
  /\ T 0 = []
  /\ (forall i, T (S i)
                = HMAC_ref PRK (T i ++ map ToUint8 info ++ [ToUint8 (Z.of_nat (S i))]))
  /\ extractLen <= 64 * n < extractLen + 64
  /\ hmac (VUint8Array ikm) (VUint8Array salt') = OK PRK.
Proof.
  intros HL salt' PRK T n. repeat split.
  - rewrite getHKDF_ref by done. reflexivity.
  - apply blocks_ceiling.
  - apply blocks_ceiling.
  - apply hmac_ref.
Qed.


Lemma getHKDF_out_of_range (ikm : value) (info : list Z) (L : Z) (salt : value) :
  (L < 0 \/ 255 * 64 < L)%Z ->
  getHKDF ikm info (VNumber (num_of_Z L)) salt = Throw Invalid_extract_length.
Proof.
  intros HL. unfold getHKDF. rewrite num_lt_of_Z, num_gt_of_Z.
  change (hashLength * 255)%Z with 16320%Z.
  destruct (Z.ltb_spec L 0); [done|].
  destruct (Z.ltb_spec 16320 L); [done|lia].
Qed.

Lemma getHKDF_not_bytes (ikm : value) (info : list Z) (L : Z) (salt : value) :
  (0 <= L <= 255 * 64)%Z ->
  (forall b, ikm <> VUint8Array b) ->
  getHKDF ikm info (VNumber (num_of_Z L)) salt = Throw Inputs_must_be_Uint8Arrays.
Proof.
  intros HL Hikm. unfold getHKDF. rewrite num_lt_of_Z, num_gt_of_Z.
  change (hashLength * 255)%Z with 16320%Z.
  destruct (Z.ltb_spec L 0); [lia|].
  destruct (Z.ltb_spec 16320 L); [lia|]. cbn [orb].
  destruct ikm; try (by destruct salt). by destruct (Hikm b).
Qed.

(** C9: on an integer extract length, [getHKDF] throws its range error
    exactly when the length is negative or exceeds 255 * 64; within the
    range it returns that many bytes for a byte-array input, and the empty
    array for length 0. *)
Theorem getHKDF_range_error
    (ikm : value) (info : list Z) (extractLen : Z) (salt : value) :
  (getHKDF ikm info (VNumber (num_of_Z extractLen)) salt
     = Throw Invalid_extract_length
   <-> (extractLen < 0 \/ 255 * 64 < extractLen)%Z)
  /\ (forall b, ikm = VUint8Array b -> (0 <= extractLen <= 255 * 64)%Z ->
      exists okm,
        getHKDF ikm info (VNumber (num_of_Z extractLen)) salt = OK okm
        /\ length okm = Z.to_nat extractLen)
  /\ (forall b, ikm = VUint8Array b -> extractLen = 0%Z ->
      getHKDF ikm info (VNumber (num_of_Z extractLen)) salt = OK []).
Proof.
  assert (Hin : forall b, ikm = VUint8Array b -> (0 <= extractLen <= 255 * 64)%Z ->
            getHKDF ikm info (VNumber (num_of_Z extractLen)) salt
            = OK (HKDF_ref (salt_or_zeros salt) b (map ToUint8 info)
                    (Z.to_nat extractLen))).
  { intros b -> HL. rewrite <- (Z2Nat.id extractLen) at 1 by lia.
    apply getHKDF_ref. lia. }
  split; [split|split].
  - intros Hthrow.
    destruct (Z_lt_dec extractLen 0) as [|Hlo]; [by left|].
    destruct (Z_lt_dec (255 * 64) extractLen) as [|Hhi]; [by right|].
    exfalso.
    assert (HL : (0 <= extractLen <= 255 * 64)%Z) by lia.
    destruct ikm as [| | | |b].
    5:{ rewrite (Hin b eq_refl HL) in Hthrow. discriminate. }
    all: rewrite getHKDF_not_bytes in Hthrow by done; discriminate.
  - apply getHKDF_out_of_range.
  - intros b Hb HL. eexists. split; [by apply Hin|]. apply HKDF_ref_length.
  - intros b Hb ->. rewrite (Hin b Hb) by lia. reflexivity.
Qed.


(** *** The fingerprint *)

Lemma string_append_assoc (a b c : string) :
  String.append (String.append a b) c = String.append a (String.append b c).
Proof. induction a as [|x a IH]; simpl; [done|]. by rewrite IH. Qed.

Lemma string_append_empty_r (a : string) : String.append a EmptyString = a.
Proof. induction a as [|x a IH]; simpl; [done|]. by rewrite IH. Qed.

Lemma fingerprint_step_hex2 (fp : string) (b : byte) :
  fingerprint_step fp b = String.append fp (hex2 b).
Proof. destruct b; reflexivity. Qed.

Lemma fingerprint_fold (bs : bytes) :
  forall fp, fold_left fingerprint_step bs fp = String.append fp (lowercase_hex bs).
Proof.
  induction bs as [|b bs IH]; intros fp; simpl.
  - by rewrite string_append_empty_r.
  - by rewrite IH, fingerprint_step_hex2, string_append_assoc.
Qed.

Lemma lowercase_hex_length (bs : bytes) :
  String.length (lowercase_hex bs) = 2 * length bs.
Proof. induction bs as [|b bs IH]; simpl; [done|]. rewrite IH. lia. Qed.

Lemma hex2_lower (b : byte) (s : string) :
  string_forallb is_lower_hex (String.append (hex2 b) s)
  = string_forallb is_lower_hex s.
Proof. destruct b; reflexivity. Qed.

Lemma lowercase_hex_lower (bs : bytes) :
  string_forallb is_lower_hex (lowercase_hex bs) = true.
Proof.
  induction bs as [|b bs IH]; [done|].
  cbn [lowercase_hex foldr]. rewrite hex2_lower. exact IH.
Qed.

Lemma decode_hex2 (b : byte) (s : string) :
  decode_hex (String.append (hex2 b) s)
  = match decode_hex s with
    | Some bs => Some (b :: bs)
    | None => None
    end.
Proof. destruct b; reflexivity. Qed.

Lemma decode_lowercase_hex (bs : bytes) : decode_hex (lowercase_hex bs) = Some bs.
Proof.
  induction bs as [|b bs IH]; [done|].
  cbn [lowercase_hex foldr]. rewrite decode_hex2.
  change (foldr (fun b s => String.append (hex2 b) s) EmptyString bs)
    with (lowercase_hex bs).
  by rewrite IH.
Qed.

(** *** Key derivation *)

Lemma deriveKeys_ref (seed : bytes) :
  deriveKeys (VUint8Array seed) = OK (derived_bundle seed).
Proof.
  unfold deriveKeys.
  change crypto_sign_SEEDBYTES with (Z.of_nat 32).
  change secretbox_keyLength with (Z.of_nat 32).
  rewrite !getHKDF_ref by lia. cbn [bind salt_or_zeros].
  change (map ToUint8 [0%Z]) with [x00].
  change (map ToUint8 [1%Z]) with [x01].
  unfold nacl_sign_keyPair_fromSeed. rewrite HKDF_ref_length.
  cbn [Nat.eqb bind].
  by rewrite fingerprint_fold.
Qed.


(** *** Hexadecimal digits of a number *)

Lemma pos_size_nat_bound (p : positive) :
  (N.pos p < 2 ^ N.of_nat (Pos.size_nat p))%N.
Proof.
  induction p as [p IH|p IH|]; cbn [Pos.size_nat];
    rewrite ?Nat2N.inj_succ, ?N.pow_succ_r'; [| |reflexivity].
  - change (N.pos p~1) with (2 * N.pos p + 1)%N. lia.
  - change (N.pos p~0) with (2 * N.pos p)%N. lia.
Qed.

Lemma size_nat_bound (n : N) : (n < 2 ^ N.of_nat (S (N.size_nat n)))%N.
Proof.
  rewrite Nat2N.inj_succ, N.pow_succ_r'.
  destruct n as [|p]; cbn [N.size_nat].
  - reflexivity.
  - pose proof (pos_size_nat_bound p). lia.
Qed.

Lemma fixed_hex_0 (w : nat) : fixed_hex w 0 = replicate w "0"%char.
Proof.
  induction w as [|w IH]; [done|].
  cbn [fixed_hex]. change (0 / 16)%N with 0%N. rewrite IH.
  change [hex_digit (0 mod 16)] with (replicate 1 "0"%char).
  rewrite <- replicate_add. f_equal. lia.
Qed.

Lemma hex_digits_fixed (fuel : nat) :
  forall (n : N) (w : nat),
    (n < 2 ^ N.of_nat fuel)%N -> 1 <= fuel ->
    length (hex_digits fuel n) <= w ->
    fixed_hex w n
    = replicate (w - length (hex_digits fuel n)) "0"%char ++ hex_digits fuel n.
Proof.
  induction fuel as [|fuel IH]; intros n w Hn Hfuel Hw; [lia|].
  cbn [hex_digits] in *.
  destruct (N.ltb_spec n 16) as [Hsmall|Hbig].
  - destruct w as [|w]; cbn [length] in Hw; [lia|].
    cbn [fixed_hex length].
    rewrite N.div_small, N.mod_small, fixed_hex_0 by done.
    do 2 f_equal. lia.
  - rewrite length_app in Hw. cbn [length] in Hw.
    destruct w as [|w]; [lia|].
    assert (Hdiv : (1 <= n / 16)%N) by (apply N.div_le_lower_bound; lia).
    assert (Hlt : (n / 16 < 2 ^ N.of_nat fuel)%N).
    { rewrite Nat2N.inj_succ, N.pow_succ_r' in Hn.
      apply N.Div0.div_lt_upper_bound. lia. }
    assert (Hf : 1 <= fuel).
    { destruct fuel; [|lia]. change (2 ^ N.of_nat 0)%N with 1%N in Hlt. lia. }
    cbn [fixed_hex]. rewrite (IH (n / 16)%N w) by (done || lia).
    rewrite length_app. cbn [length].
    rewrite <- app_assoc. do 2 f_equal. lia.
Qed.

Lemma hex_digits_length (fuel : nat) :
  forall (n : N) (w : nat),
    (n < 16 ^ N.of_nat w)%N -> 1 <= w -> length (hex_digits fuel n) <= w.
Proof.
  induction fuel as [|fuel IH]; intros n w Hn Hw; cbn [hex_digits length]; [lia|].
  destruct (N.ltb_spec n 16) as [Hsmall|Hbig]; [done|].
  rewrite length_app. cbn [length].
  destruct w as [|w]; [lia|].
  rewrite Nat2N.inj_succ, N.pow_succ_r' in Hn.
  assert (Hw' : 1 <= w).
  { destruct w; [|lia]. change (16 ^ N.of_nat 0)%N with 1%N in Hn. lia. }
  assert (Hlt : (n / 16 < 16 ^ N.of_nat w)%N)
    by (apply N.Div0.div_lt_upper_bound; lia).
  pose proof (IH (n / 16)%N w Hlt Hw'). lia.
Qed.

Lemma string_of_list_ascii_length (l : list ascii) :
  String.length (string_of_list_ascii l) = length l.
Proof. induction l as [|c l IH]; simpl; [done|]. by rewrite IH. Qed.

Lemma string_of_list_ascii_app (l k : list ascii) :
  string_of_list_ascii (l ++ k)
  = String.append (string_of_list_ascii l) (string_of_list_ascii k).
Proof. induction l as [|c l IH]; simpl; [done|]. by rewrite IH. Qed.

Lemma append_zeros_cons (k : nat) (s : string) :
  String.append (string_of_list_ascii (replicate k "0"%char)) (String "0" s)
  = String "0" (String.append (string_of_list_ascii (replicate k "0"%char)) s).
Proof. induction k as [|k IH]; simpl; [done|]. by rewrite IH. Qed.

(** The padding loop stops with a string of at least 12 characters. *)
Lemma pad_loop_zeros (fuel : nat) :
  forall s : string,
    12 - String.length s <= fuel ->
    pad_loop fuel s
    = String.append
        (string_of_list_ascii (replicate (12 - String.length s) "0"%char)) s.
Proof.
  induction fuel as [|fuel IH]; intros s Hfuel; cbn [pad_loop].
  - by replace (12 - String.length s) with 0 by lia.
  - destruct (Nat.ltb_spec (String.length s) 12) as [Hshort|Hlong].
    + rewrite IH by (cbn [String.length]; lia). cbn [String.length].
      replace (12 - String.length s) with (S (12 - S (String.length s))) by lia.
      by rewrite append_zeros_cons.
    + by replace (12 - String.length s) with 0 by lia.
Qed.

Lemma hexTime_fixed (t : Z) :
  (0 <= t < 2 ^ 48)%Z ->
  pad_loop 12 (Number_toString16 t)
  = string_of_list_ascii (fixed_hex 12 (Z.to_N t)).
Proof.
  intros Ht. unfold Number_toString16.
  destruct (Z.ltb_spec t 0); [lia|].
  replace (Z.abs_N t) with (Z.to_N t) by lia.
  set (n := Z.to_N t).
  assert (Hn : (n < 16 ^ N.of_nat 12)%N).
  { change (16 ^ N.of_nat 12)%N with (Z.to_N (2 ^ 48)). subst n. lia. }
  pose proof (hex_digits_length (S (N.size_nat n)) n 12 Hn ltac:(lia)) as Hlen.
  rewrite pad_loop_zeros by lia.
  rewrite string_of_list_ascii_length, <- string_of_list_ascii_app.
  f_equal. symmetry. apply hex_digits_fixed; [apply size_nat_bound|lia|done].
Qed.


Lemma hex_value_digit (k : nat) :
  k < 16 -> hex_value (hex_digit (N.of_nat k)) = Some (N.of_nat k).
Proof. intros Hk. do 16 (destruct k as [|k]; [reflexivity|]). lia. Qed.

Lemma hex_value_digit_N (a : N) :
  (a < 16)%N -> hex_value (hex_digit a) = Some a.
Proof.
  intros Ha. rewrite <- (N2Nat.id a). apply hex_value_digit. lia.
Qed.

Lemma u8_of_N_mod (x : N) : u8_of_N (x mod 256) = u8_of_N x.
Proof. unfold u8_of_N. by rewrite N.Div0.mod_mod. Qed.

Lemma ToUint8_of_N (m : N) : ToUint8 (Z.of_N m) = u8_of_N m.
Proof.
  unfold ToUint8. change 256%Z with (Z.of_N 256).
  rewrite <- N2Z.inj_mod, N2Z.id. apply u8_of_N_mod.
Qed.

Lemma hex_pair_byte (x : N) :
  ToUint8_number
    (Number_0x (Some (hex_digit ((x / 16) mod 16))) (Some (hex_digit (x mod 16))))
  = u8_of_N x.
Proof.
  unfold Number_0x.
  rewrite !hex_value_digit_N by (apply N.mod_lt; lia).
  cbn [ToUint8_number]. rewrite Qtrunc_inject_Z, ToUint8_of_N.
  replace (16 * ((x / 16) mod 16) + x mod 16)%N with (x mod 256)%N.
  - apply u8_of_N_mod.
  - change 256%N with (16 * 16)%N. rewrite N.Div0.mod_mul_r. apply N.add_comm.
Qed.

Lemma ToUint8_div (t : Z) (k : N) :
  (0 <= t)%Z ->
  ToUint8 (t / 256 ^ Z.of_N k) = u8_of_N (Z.to_N t / 256 ^ k).
Proof.
  intros Ht. rewrite <- (Z2N.id t) at 1 by done.
  change 256%Z with (Z.of_N 256).
  by rewrite <- N2Z.inj_pow, <- N2Z.inj_div, ToUint8_of_N.
Qed.

Lemma be48_of_N (t : Z) :
  (0 <= t)%Z ->
  be48 t = map (fun k => u8_of_N (Z.to_N t / 256 ^ k)) [5; 4; 3; 2; 1; 0]%N.
Proof.
  intros Ht. unfold be48. cbn [map].
  by rewrite <- !ToUint8_div.
Qed.

Lemma timestamp_loop (n : N) (b0 b1 b2 b3 b4 : byte) (rest : bytes) :
  for_range 0 6 (timestamp_step (string_of_list_ascii (fixed_hex 12 n)))
    (b0 :: b1 :: b2 :: b3 :: b4 :: replicate 6 x00 ++ rest)
  = b0 :: b1 :: b2 :: b3 :: b4
    :: map (fun k => u8_of_N (n / 256 ^ k)) [5; 4; 3; 2; 1; 0]%N ++ rest.
Proof.
  cbn [for_range fixed_hex app string_of_list_ascii replicate].
  unfold timestamp_step.
  cbn [String.get Nat.mul Nat.add].
  rewrite !hex_pair_byte.
  cbn [insert list_insert Nat.add map app].
  rewrite !N.Div0.div_div.
  change (256 ^ 0)%N with 1%N. rewrite N.div_1_r.
  reflexivity.
Qed.

Lemma getNonce_layout (d : Z) (w : World) :
  (0 <= d <= 255)%Z ->
  (0 <= clock w < 2 ^ 48)%Z ->
  getNonce (VNumber (num_of_Z d)) w
  = (OK (ToUint8 d :: map (entropy w) (seq 0 4) ++ be48 (clock w)
         ++ replicate 13 x00),
     snd (nacl_randomBytes 4 w)).
Proof.
  intros Hd Ht. unfold getNonce.
  rewrite num_lt_of_Z, num_gt_of_Z.
  destruct (Z.ltb_spec d 0); [lia|]. destruct (Z.ltb_spec 255 d); [lia|].
  cbn [orb]. unfold Date_getTime.
  rewrite Z.gtb_ltb.
  destruct (Z.ltb_spec (256 ^ 6) (clock w)) as [Hbig|_].
  { change (256 ^ 6)%Z with (2 ^ 48)%Z in Hbig. lia. }
  rewrite hexTime_fixed by done.
  rewrite be48_of_N by lia.
  unfold nacl_randomBytes, num_of_Z. cbn [ToUint8_number]. rewrite Qtrunc_inject_Z.
  cbn [seq map snd].
  change (typed_set (<[0:=ToUint8 d]> (replicate secretbox_nonceLength x00))
            [entropy w 0; entropy w 1; entropy w 2; entropy w 3] 1)
    with (OK (ToUint8 d :: entropy w 0 :: entropy w 1 :: entropy w 2
              :: entropy w 3 :: replicate 6 x00 ++ replicate 13 x00)).
  cbv beta iota. by rewrite timestamp_loop.
Qed.

Lemma to_N_u8_of_N (n : N) : Byte.to_N (u8_of_N n) = (n mod 256)%N.
Proof.
  unfold u8_of_N.
  pose proof (Byte.to_of_N_option_map (n mod 256)) as H.
  pose proof (N.mod_lt n 256 ltac:(lia)) as Hlt.
  destruct (N.leb_spec (n mod 256) 255) as [_|Hbig]; [|lia].
  destruct (Byte.of_N (n mod 256)) as [b|]; simpl in H; congruence.
Qed.

Lemma log2_byte (x : N) : (x <= 255)%N -> (N.log2 x < 8)%N.
Proof.
  intros Hx. destruct (N.eq_dec x 0%N) as [->|Hpos]; [reflexivity|].
  apply N.log2_lt_pow2; [lia|]. change (2 ^ 8)%N with 256%N. lia.
Qed.

(** The XOR of two bytes is a byte: nothing is lost when it is stored. *)
Lemma byte_xor_lxor (a b : byte) :
  Byte.to_N (byte_xor a b) = N.lxor (Byte.to_N a) (Byte.to_N b).
Proof.
  unfold byte_xor. rewrite to_N_u8_of_N. apply N.mod_small.
  pose proof (log2_byte _ (Byte.to_N_bounded a)) as Ha.
  pose proof (log2_byte _ (Byte.to_N_bounded b)) as Hb.
  pose proof (N.log2_lxor (Byte.to_N a) (Byte.to_N b)) as Hx.
  destruct (N.eq_dec (N.lxor (Byte.to_N a) (Byte.to_N b)) 0%N) as [->|Hpos]; [lia|].
  change 256%N with (2 ^ 8)%N. apply N.log2_lt_pow2; lia.
Qed.

Lemma getSeed_length (w : World) : length (fst (getSeed w)) = 32.
Proof. unfold getSeed, nacl_randomBytes. cbn [fst]. by rewrite length_map, length_seq. Qed.

Lemma byte_to_Z_ToUint8 (z : Z) :
  (0 <= z <= 255)%Z -> byte_to_Z (ToUint8 z) = z.
Proof.
  intros Hz. unfold byte_to_Z, ToUint8. rewrite to_N_u8_of_N.
  rewrite Z.mod_small by lia.
  rewrite N.mod_small by lia. lia.
Qed.

Lemma timestamp_step_length (hexTime : string) (count : nat) :
  forall (i : nat) (nonce : bytes),
    length (for_range i count (timestamp_step hexTime) nonce) = length nonce.
Proof.
  induction count as [|count IH]; intros i nonce; cbn [for_range]; [done|].
  rewrite IH. unfold timestamp_step. apply length_insert.
Qed.

Lemma getNonce_bad_id (deviceId : value) (w : World) :
  bad_device_id deviceId = true ->
  getNonce deviceId w = (Throw Invalid_device_ID, w).
Proof.
  unfold bad_device_id, getNonce. destruct deviceId; try done.
  by intros ->.
Qed.

Lemma getNonce_late (deviceId : value) (w : World) :
  bad_device_id deviceId = false ->
  (2 ^ 48 < clock w)%Z ->
  getNonce deviceId w = (Throw Timestamp_too_far, w).
Proof.
  unfold bad_device_id, getNonce. destruct deviceId; try done.
  intros -> Ht. unfold Date_getTime. rewrite Z.gtb_ltb.
  destruct (Z.ltb_spec (256 ^ 6) (clock w)) as [|Hsmall]; [done|].
  change (256 ^ 6)%Z with (2 ^ 48)%Z in Hsmall. lia.
Qed.

Lemma getNonce_returns (deviceId : value) (w : World) :
  bad_device_id deviceId = false ->
  (clock w <= 2 ^ 48)%Z ->
  exists nonce,
    getNonce deviceId w = (OK nonce, snd (nacl_randomBytes 4 w))
    /\ length nonce = 24.
Proof.
  unfold bad_device_id, getNonce. destruct deviceId as [| |d| |]; try done.
  intros -> Ht. unfold Date_getTime. rewrite Z.gtb_ltb.
  destruct (Z.ltb_spec (256 ^ 6) (clock w)) as [Hbig|_].
  { change (256 ^ 6)%Z with (2 ^ 48)%Z in Hbig. lia. }
  unfold nacl_randomBytes. cbn [seq map snd].
  change (typed_set (<[0:=ToUint8_number d]> (replicate secretbox_nonceLength x00))
            [entropy w 0; entropy w 1; entropy w 2; entropy w 3] 1)
    with (OK (ToUint8_number d :: entropy w 0 :: entropy w 1 :: entropy w 2
              :: entropy w 3 :: replicate 19 x00)).
  cbv beta iota. eexists. split; [reflexivity|].
  by rewrite timestamp_step_length.
Qed.

Lemma bad_device_id_Fin (q : Q) :
  bad_device_id (VNumber (Fin q)) = false <-> (0 <= q <= 255)%Q.
Proof.
  unfold bad_device_id, num_gt, num_lt, num_of_Z.
  rewrite orb_false_iff, !negb_false_iff, !Qle_bool_iff. done.
Qed.


Lemma byte_to_Z_ToUint8_mod (z : Z) : byte_to_Z (ToUint8 z) = (z mod 256)%Z.
Proof.
  rewrite <- (byte_to_Z_ToUint8 (z mod 256)).
  - unfold ToUint8. by rewrite Z.mod_mod.
  - pose proof (Z.mod_pos_bound z 256 ltac:(lia)). lia.
Qed.

Lemma be48_decode (t : Z) :
  (0 <= t < 2 ^ 48)%Z -> be_decode (be48 t) = t.
Proof.
  intros Ht. unfold be_decode, be48. cbn [map fold_left].
  rewrite !byte_to_Z_ToUint8_mod.
  change (256 ^ 0)%Z with 1%Z. change (256 ^ 1)%Z with 256%Z.
  change (256 ^ 2)%Z with 65536%Z. change (256 ^ 3)%Z with 16777216%Z.
  change (256 ^ 4)%Z with 4294967296%Z. change (256 ^ 5)%Z with 1099511627776%Z.
  change (2 ^ 48)%Z with 281474976710656%Z in Ht.
  Z.div_mod_to_equations. lia.
Qed.

(** C2: for an integer device id between 0 and 255 and a clock below 2^48,
    [getNonce] returns 24 bytes: byte 0 is the device id, bytes 1 to 4 are
    the four bytes drawn from the random source, bytes 5 to 10 are the clock
    in milliseconds as a 48-bit big-endian integer, bytes 11 to 23 are zero. *)
Theorem getNonce_byte_layout (deviceId : Z) (w : World) :
  (0 <= deviceId <= 255)%Z ->
  (0 <= clock w < 2 ^ 48)%Z ->
  exists nonce,
    fst (getNonce (VNumber (num_of_Z deviceId)) w) = OK nonce
    /\ length nonce = 24
    /\ byte_to_Z <$> nonce !! 0 = Some deviceId
    /\ take 4 (drop 1 nonce) = fst (nacl_randomBytes 4 w)
    /\ take 6 (drop 5 nonce) = be48 (clock w)
    /\ be_decode (take 6 (drop 5 nonce)) = clock w
    /\ drop 11 nonce = replicate 13 x00
    /\ snd (getNonce (VNumber (num_of_Z deviceId)) w) = snd (nacl_randomBytes 4 w).
Proof.
  intros Hd Ht. rewrite getNonce_layout by done.
  eexists. split; [reflexivity|].
  cbn [seq map nacl_randomBytes fst].
  repeat split.
  - cbn [lookup list_lookup fmap option_fmap option_map]. f_equal.
    by apply byte_to_Z_ToUint8.
  - by apply be48_decode.
Qed.

(** C4, as the code has it: [getNonce] throws its device-id error when the
    device id is not a number, or is a number below 0 or above 255; for a
    number between 0 and 255, integer or not, it throws its timestamp error
    when the clock is above 2^48 and returns a 24-byte nonce when the clock
    is below 2^48. *)
Theorem getNonce_errors (deviceId : value) (w : World) :
  ((forall x, deviceId <> VNumber x) ->
   getNonce deviceId w = (Throw Invalid_device_ID, w))
  /\ (forall q, deviceId = VNumber (Fin q) -> (q < 0 \/ 255 < q)%Q ->
      getNonce deviceId w = (Throw Invalid_device_ID, w))
  /\ (deviceId = VNumber PosInf \/ deviceId = VNumber NegInf ->
      getNonce deviceId w = (Throw Invalid_device_ID, w))
  /\ (forall q, deviceId = VNumber (Fin q) -> (0 <= q <= 255)%Q ->
      (2 ^ 48 < clock w)%Z ->
      getNonce deviceId w = (Throw Timestamp_too_far, w))
  /\ (forall q, deviceId = VNumber (Fin q) -> (0 <= q <= 255)%Q ->
      (clock w < 2 ^ 48)%Z ->
      exists nonce w',
        getNonce deviceId w = (OK nonce, w') /\ length nonce = 24).
Proof.
  repeat split.
  - intros Hnot. apply getNonce_bad_id.
    destruct deviceId as [| |x| |]; try done. by destruct (Hnot x).
  - intros q -> Hq. apply getNonce_bad_id.
    destruct (bad_device_id (VNumber (Fin q))) eqn:Hbad; [done|].
    apply bad_device_id_Fin in Hbad.
    destruct Hq as [Hq|Hq]; apply Qlt_not_le in Hq; tauto.
  - intros [-> | ->]; by apply getNonce_bad_id.
  - intros q -> Hq Ht. apply getNonce_late; [|done].
    by apply bad_device_id_Fin.
  - intros q -> Hq Ht.
    destruct (getNonce_returns (VNumber (Fin q)) w) as (nonce & Hn & Hlen);
      [by apply bad_device_id_Fin|lia|].
    by exists nonce, (snd (nacl_randomBytes 4 w)).
Qed.

(** ** What the proofs rely on: the key pair and the secretbox *)

(** An Ed25519 public key is 32 bytes long. *)
Hypothesis crypto_sign_publicKey_length :
  forall seed, length seed = 32 -> length (fst (crypto_sign_keypair seed)) = 32.

(** Opening a box with the nonce and key that made it gives the message. *)
Hypothesis crypto_secretbox_open_secretbox :
  forall m n k, length n = 24 -> length k = 32 ->
    crypto_secretbox_open (crypto_secretbox m n k) n k = Some m.

(** C1: for a 32-byte seed, [deriveKeys] returns the key pair that
    tweetnacl derives from the 32-byte HKDF of the seed with info [0], the
    lowercase hexadecimal public key as fingerprint, and as secretbox key the
    32-byte HKDF of the seed with info [1], both under the 64-byte
    [HKDF_SALT]; the bundle depends on the seed only. *)
Theorem deriveKeys_reference (seed : bytes) :
  length seed = 32 ->
  exists signingSeed sbk,
    getHKDF (VUint8Array seed) [0%Z] (VNumber (num_of_Z 32)) (VUint8Array HKDF_SALT)
    = OK signingSeed
    /\ getHKDF (VUint8Array seed) [1%Z] (VNumber (num_of_Z 32)) (VUint8Array HKDF_SALT)
       = OK sbk
    /\ signingSeed = HKDF_ref HKDF_SALT seed [x00] 32
    /\ sbk = HKDF_ref HKDF_SALT seed [x01] 32
    /\ length HKDF_SALT = 64
    /\ deriveKeys (VUint8Array seed)
       = OK {| publicKey := fst (crypto_sign_keypair signingSeed);
               secretKey := snd (crypto_sign_keypair signingSeed);
               fingerprint := lowercase_hex (fst (crypto_sign_keypair signingSeed));
               secretboxKey := sbk |}.
Proof.
  intros _.
  exists (HKDF_ref HKDF_SALT seed [x00] 32), (HKDF_ref HKDF_SALT seed [x01] 32).
  change (num_of_Z 32) with (num_of_Z (Z.of_nat 32)).
  rewrite !getHKDF_ref by lia.
  repeat split. apply deriveKeys_ref.
Qed.

(** C3, as the code has it: [deriveKeys] throws its seed error exactly when
    the seed is not a byte array; a byte array of any length is accepted and
    gives a key bundle. *)
Theorem deriveKeys_seed_check (seed : value) :
  (deriveKeys seed = Throw Seed_must_be_Uint8Array
   <-> forall b, seed <> VUint8Array b)
  /\ (forall b, seed = VUint8Array b -> exists kb, deriveKeys seed = OK kb).
Proof.
  split; [split|].
  - intros Hthrow b ->. by rewrite deriveKeys_ref in Hthrow.
  - intros Hnot. destruct seed as [| | | |b]; try done. by destruct (Hnot b).
  - intros b ->. eexists. apply deriveKeys_ref.
Qed.

(** C10: for a 32-byte seed, the fingerprint of [deriveKeys] is 64
    characters long, every character is a lowercase hexadecimal digit, each
    byte of the public key gives two digits, and decoding the fingerprint
    gives the 32-byte public key. *)
Theorem fingerprint_is_hex_of_publicKey (seed : bytes) :
  length seed = 32 ->
  exists kb,
    deriveKeys (VUint8Array seed) = OK kb
    /\ String.length (fingerprint kb) = 64
    /\ string_forallb is_lower_hex (fingerprint kb) = true
    /\ fingerprint kb = lowercase_hex (publicKey kb)
    /\ decode_hex (fingerprint kb) = Some (publicKey kb)
    /\ length (publicKey kb) = 32.
Proof.
  intros _. exists (derived_bundle seed).
  assert (Hpk : length (publicKey (derived_bundle seed)) = 32).
  { cbn [derived_bundle publicKey].
    apply crypto_sign_publicKey_length, HKDF_ref_length. }
  split; [apply deriveKeys_ref|].
  change (fingerprint (derived_bundle seed))
    with (lowercase_hex (publicKey (derived_bundle seed))).
  rewrite lowercase_hex_length, Hpk.
  repeat split.
  - apply lowercase_hex_lower.
  - apply decode_lowercase_hex.
Qed.

(** C5: for a message, a 32-byte key and an integer device id between 0 and
    255, with the clock below 2^48, [encrypt] returns an envelope, and
    [decrypt] on its ciphertext and nonce under the same key returns the
    message. *)
Theorem encrypt_decrypt_roundtrip (m key : bytes) (deviceId : Z) (w : World) :
  length key = 32 ->
  (0 <= deviceId <= 255)%Z ->
  (clock w < 2 ^ 48)%Z ->
  exists e w',
    encrypt (VUint8Array m) (VUint8Array key) (VNumber (num_of_Z deviceId)) w
    = (OK e, w')
    /\ length (nonce e) = 24
    /\ decrypt (VUint8Array (ciphertext e)) (VUint8Array (nonce e)) (VUint8Array key)
       = OK (VUint8Array m).
Proof.
  intros Hkey Hd Ht.
  destruct (getNonce_returns (VNumber (num_of_Z deviceId)) w) as (n & Hn & Hlen).
  { unfold bad_device_id. rewrite num_lt_of_Z, num_gt_of_Z.
    destruct (Z.ltb_spec deviceId 0), (Z.ltb_spec 255 deviceId); simpl; lia. }
  { lia. }
  unfold encrypt. rewrite Hn.
  unfold nacl_secretbox. rewrite Hkey, Hlen. cbn [Nat.eqb negb bind].
  eexists _, _. split; [reflexivity|]. cbn [nonce ciphertext].
  split; [done|].
  unfold decrypt, nacl_secretbox_open. rewrite Hkey, Hlen. cbn [Nat.eqb negb].
  by rewrite crypto_secretbox_open_secretbox.
Qed.

(** C6: on a 24-byte nonce and a 32-byte key, [decrypt] never throws: it
    returns the plaintext when the box opens, and the message itself for a
    box made from it with that nonce and key; otherwise it returns [false],
    which is not a byte array. *)
Theorem decrypt_sentinel (c n k : bytes) :
  length n = 24 ->
  length k = 32 ->
  decrypt (VUint8Array c) (VUint8Array n) (VUint8Array k)
  = OK (match crypto_secretbox_open c n k with
        | Some m => VUint8Array m
        | None => VBool false
        end)
  /\ (forall m, c = crypto_secretbox m n k ->
      decrypt (VUint8Array c) (VUint8Array n) (VUint8Array k) = OK (VUint8Array m))
  /\ (forall e, decrypt (VUint8Array c) (VUint8Array n) (VUint8Array k) <> Throw e)
  /\ (forall m, VBool false <> VUint8Array m).
Proof.
  intros Hn Hk.
  assert (Hd : decrypt (VUint8Array c) (VUint8Array n) (VUint8Array k)
               = OK (match crypto_secretbox_open c n k with
                     | Some m => VUint8Array m
                     | None => VBool false
                     end)).
  { unfold decrypt, nacl_secretbox_open. by rewrite Hn, Hk. }
  repeat split.
  - exact Hd.
  - intros m ->. by rewrite Hd, crypto_secretbox_open_secretbox.
  - intros e. by rewrite Hd.
  - done.
Qed.

(** ** Further properties of the module *)

(** *** HMAC: errors and equivalent keys *)

(** X1: [hmac] throws exactly when the message or the key is not a byte
    array, and then with its input error; on byte arrays of any length,
    also empty ones, no step of it throws. *)
Theorem hmac_throws_only_on_bad_input (message key : value) :
  (hmac message key = Throw Inputs_must_be_Uint8Arrays
   <-> (forall b, message <> VUint8Array b) \/ (forall b, key <> VUint8Array b))
  /\ (forall e, hmac message key = Throw e -> e = Inputs_must_be_Uint8Arrays)
  /\ (forall m k, message = VUint8Array m -> key = VUint8Array k ->
      exists mac, hmac message key = OK mac /\ length mac = 64).
Proof.
  assert (Hbad : (forall b, message <> VUint8Array b) \/ (forall b, key <> VUint8Array b) ->
                 hmac message key = Throw Inputs_must_be_Uint8Arrays).
  { intros [Hm|Hk].
    - destruct message as [| | | |m]; try done. by destruct (Hm m).
    - destruct message as [| | | |m]; try done.
      destruct key as [| | | |k]; try done. by destruct (Hk k). }
  assert (Hgood : forall m k, message = VUint8Array m -> key = VUint8Array k ->
                  hmac message key = OK (HMAC_ref k m)).
  { intros m k -> ->. apply hmac_ref. }
  split; [split; [|exact Hbad]|split].
  - intros Hthrow.
    destruct message as [| | | |m]; try (left; discriminate).
    destruct key as [| | | |k]; try (right; discriminate).
    by rewrite (Hgood m k) in Hthrow.
  - intros e He.
    destruct message as [| | | |m];
      try (rewrite Hbad in He by (left; discriminate); congruence).
    destruct key as [| | | |k];
      try (rewrite Hbad in He by (right; discriminate); congruence).
    by rewrite (Hgood m k) in He.
  - intros m k Hm Hk. eexists. split; [by apply Hgood|].
    unfold HMAC_ref. apply nacl_hash_length.
Qed.

Lemma xor_pad_zeros (c : byte) (key : bytes) (j : nat) :
  length key + j <= BLOCK_SIZE ->
  xor_pad c (key ++ replicate j x00) = xor_pad c key.
Proof.
  intros Hlen. unfold xor_pad. f_equal.
  rewrite <- app_assoc, <- replicate_add, length_app, length_replicate.
  do 2 f_equal. lia.
Qed.

Lemma hmac_zero_padded (message key : bytes) (j : nat) :
  length key + j <= 128 ->
  hmac (VUint8Array message) (VUint8Array (key ++ replicate j x00))
  = hmac (VUint8Array message) (VUint8Array key).
Proof.
  intros Hlen. rewrite !hmac_ref. unfold HMAC_ref.
  rewrite length_app, length_replicate.
  destruct (Nat.ltb_spec BLOCK_SIZE (length key + j)) as [Hbig|_];
    [unfold BLOCK_SIZE in Hbig; lia|].
  destruct (Nat.ltb_spec BLOCK_SIZE (length key)) as [Hbig|_];
    [unfold BLOCK_SIZE in Hbig; lia|].
  by rewrite !xor_pad_zeros.
Qed.

(** X2: a key of at most 128 bytes and the same key followed by zero bytes,
    up to 128 bytes in all, give the same MAC for every message. *)
Theorem hmac_key_zero_padding (message key : bytes) (j : nat) :
  length key + j <= 128 ->
  hmac (VUint8Array message) (VUint8Array (key ++ replicate j x00))
  = hmac (VUint8Array message) (VUint8Array key).
Proof.
  intros Hlen. destruct j as [|j].
  - by rewrite app_nil_r.
  - by apply hmac_zero_padded.
Qed.

(** X3: a key longer than 128 bytes gives the same MAC as its hash used as
    the key. *)
Theorem hmac_long_key (message key : bytes) :
  128 < length key ->
  hmac (VUint8Array message) (VUint8Array key)
  = hmac (VUint8Array message) (VUint8Array (nacl_hash key)).
Proof.
  intros Hlen. rewrite !hmac_ref. unfold HMAC_ref.
  rewrite nacl_hash_length.
  destruct (Nat.ltb_spec BLOCK_SIZE (length key)) as [_|Hsmall];
    [|unfold BLOCK_SIZE in Hsmall; lia].
  destruct (Nat.ltb_spec BLOCK_SIZE 64) as [Hbig|_];
    [unfold BLOCK_SIZE in Hbig; lia|].
  reflexivity.
Qed.

(** *** HKDF: prefixes, salts and info labels *)

Lemma blocks_mono (L1 L2 : nat) : L1 <= L2 -> blocks L1 <= blocks L2.
Proof. intros H. unfold blocks. apply Nat.Div0.div_le_mono. lia. Qed.

Lemma take_concat_T (prk info : bytes) (L n1 n2 : nat) :
  L <= 64 * n1 -> n1 <= n2 ->
  take L (concat (map (HKDF_T prk info) (seq 1 n2)))
  = take L (concat (map (HKDF_T prk info) (seq 1 n1))).
Proof.
  intros HL Hn.
  replace n2 with (n1 + (n2 - n1)) by lia.
  rewrite seq_app, map_app, concat_app.
  apply take_app_le. rewrite concat_T_length. lia.
Qed.

(** X4: the output for a shorter extract length is a prefix of the output
    for a longer one, for the same input, info and salt. *)
Theorem getHKDF_prefix
    (ikm : bytes) (info : list Z) (salt : value) (L1 L2 : nat) :
  L1 <= L2 -> L2 <= 255 * 64 ->
  exists out1 out2,
    getHKDF (VUint8Array ikm) info (VNumber (num_of_Z (Z.of_nat L1))) salt = OK out1
    /\ getHKDF (VUint8Array ikm) info (VNumber (num_of_Z (Z.of_nat L2))) salt = OK out2
    /\ out1 = take L1 out2.
Proof.
  intros H12 H2. rewrite !getHKDF_ref by lia.
  eexists _, _. split; [reflexivity|]. split; [reflexivity|].
  unfold HKDF_ref. rewrite take_take, Nat.min_l by done.
  symmetry. apply take_concat_T; [apply blocks_ceiling|by apply blocks_mono].
Qed.

Lemma hmac_zero_key (message : value) (j : nat) :
  j <= 128 ->
  hmac message (VUint8Array (replicate j x00)) = hmac message (VUint8Array []).
Proof.
  intros Hj. destruct message as [| | | |m]; try done.
  apply (hmac_zero_padded m [] j). simpl. lia.
Qed.

(** X5: a salt that is not a byte array, the empty salt and a salt of up to
    128 zero bytes all give the same result. *)
Theorem getHKDF_zero_salts
    (ikm : value) (info : list Z) (extractLen salt : value) (j : nat) :
  (forall b, salt <> VUint8Array b) ->
  j <= 128 ->
  getHKDF ikm info extractLen (VUint8Array (replicate j x00))
  = getHKDF ikm info extractLen salt.
Proof.
  intros Hsalt Hj. unfold getHKDF.
  destruct extractLen as [| |len| |]; try done.
  destruct (num_lt len (num_of_Z 0) || num_gt len (num_of_Z (hashLength * 255)));
    [done|].
  replace (match salt with
           | VUint8Array _ => salt
           | _ => VUint8Array (replicate (Z.to_nat hashLength) x00)
           end) with (VUint8Array (replicate 64 x00)).
  - by rewrite (hmac_zero_key ikm j), (hmac_zero_key ikm 64) by lia.
  - destruct salt as [| | | |b]; try done. by destruct (Hsalt b).
Qed.

Lemma expand_loop_info (prk : bytes) (info1 info2 : list Z) (count : nat) :
  map ToUint8 info1 = map ToUint8 info2 ->
  forall (i : Z) (prev okm : list Z),
    expand_loop prk info1 count i prev okm = expand_loop prk info2 count i prev okm.
Proof.
  intros Hinfo. induction count as [|count IH]; intros i prev okm; [done|].
  cbn [expand_loop]. rewrite !map_app, Hinfo.
  destruct (hmac _ _) as [h|e]; cbn [bind]; [apply IH|done].
Qed.

Lemma ToUint8_mod (z : Z) : ToUint8 (z mod 256) = ToUint8 z.
Proof. unfold ToUint8. by rewrite Z.mod_mod. Qed.

(** X6: the numbers of the info label count modulo 256 only: a label and
    the label of its remainders give the same result, so 256 stands for 0. *)
Theorem getHKDF_info_mod_256
    (ikm : value) (info : list Z) (extractLen salt : value) :
  getHKDF ikm (map (fun z => z mod 256)%Z info) extractLen salt
  = getHKDF ikm info extractLen salt.
Proof.
  assert (Hinfo : map ToUint8 (map (fun z => z mod 256)%Z info) = map ToUint8 info).
  { rewrite map_map. apply map_ext. intros z. apply ToUint8_mod. }
  unfold getHKDF.
  destruct extractLen as [| |len| |]; try done.
  destruct (num_lt len (num_of_Z 0) || num_gt len (num_of_Z (hashLength * 255)));
    [done|].
  destruct (hmac ikm _) as [prk|e]; cbn [bind]; [|done].
  destruct len as [q| | |]; try done.
  by rewrite (expand_loop_info prk _ info).
Qed.

Lemma Qfloor_bounds (q : Q) (hi : Z) :
  (0 <= q <= inject_Z hi)%Q -> (0 <= Qfloor q <= hi)%Z.
Proof.
  intros [Hlo Hhi]. split.
  - change 0%Z with (Qfloor 0). by apply Qfloor_resp_le.
  - rewrite <- (Qfloor_Z hi). by apply Qfloor_resp_le.
Qed.

(** X7: a fractional extract length within the range is accepted and gives
    the result of its integer part. *)
Theorem getHKDF_fractional_length
    (ikm : bytes) (info : list Z) (salt : value) (q : Q) :
  (0 <= q <= inject_Z (255 * 64))%Q ->
  getHKDF (VUint8Array ikm) info (VNumber (Fin q)) salt
  = getHKDF (VUint8Array ikm) info (VNumber (num_of_Z (Qfloor q))) salt
  /\ exists okm,
       getHKDF (VUint8Array ikm) info (VNumber (Fin q)) salt = OK okm
       /\ length okm = Z.to_nat (Qfloor q).
Proof.
  intros Hq. pose proof (Qfloor_bounds q _ Hq) as Hfl.
  set (L := Z.to_nat (Qfloor q)).
  assert (Hint : getHKDF (VUint8Array ikm) info (VNumber (num_of_Z (Qfloor q))) salt
                 = OK (HKDF_ref (salt_or_zeros salt) ikm (map ToUint8 info) L)).
  { rewrite <- (Z2Nat.id (Qfloor q)) by lia. apply getHKDF_ref.
    subst L. lia. }
  assert (Hfrac : getHKDF (VUint8Array ikm) info (VNumber (Fin q)) salt
                  = OK (HKDF_ref (salt_or_zeros salt) ikm (map ToUint8 info) L)).
  { unfold getHKDF, num_gt, num_lt, num_of_Z.
    destruct Hq as [Hlo Hhi].
    change (inject_Z 0) with 0%Q.
    apply Qle_bool_iff in Hlo as Hlo'. rewrite Hlo'.
    change (hashLength * 255)%Z with (255 * 64)%Z.
    apply Qle_bool_iff in Hhi as Hhi'. rewrite Hhi'. cbn [negb orb].
    assert (Hprk : hmac (VUint8Array ikm)
                     match salt with
                     | VUint8Array _ => salt
                     | _ => VUint8Array (replicate (Z.to_nat hashLength) x00)
                     end = OK (HMAC_ref (salt_or_zeros salt) ikm)).
    { destruct salt; apply hmac_ref. }
    rewrite Hprk. cbn [bind].
    pose proof (expand_loop_ref (HMAC_ref (salt_or_zeros salt) ikm) info
                  (Z.to_nat (Qceiling (q / inject_Z hashLength))) 0 []) as Hloop.
    cbn [HKDF_T map app] in Hloop. change (Z.of_nat 1) with 1%Z in Hloop.
    rewrite Hloop. cbn [bind]. f_equal.
    rewrite <- firstn_map, ToUint8_numbers.
    unfold Qtrunc. rewrite Hlo'. fold L. unfold HKDF_ref.
    apply take_concat_T; [apply blocks_ceiling|].
    rewrite <- blocks_of_nat. subst L. rewrite Z2Nat.id by lia.
    rewrite <- Qceiling_div_hashLength.
    apply Z2Nat.inj_le.
    - rewrite Qceiling_div_hashLength. apply Z.div_pos; lia.
    - etrans; [|apply (Qceiling_resp_le (inject_Z (Qfloor q) / inject_Z hashLength))].
      + rewrite Qceiling_div_hashLength. apply Z.div_pos; lia.
      + apply Qmult_le_compat_r; [apply Qfloor_le|done].
    - apply Qceiling_resp_le.
      apply Qmult_le_compat_r; [apply Qfloor_le|done]. }
  split; [by rewrite Hint, Hfrac|].
  eexists. split; [exact Hfrac|]. apply HKDF_ref_length.
Qed.

(** *** Nonces *)

(** X8: for integer device ids between 0 and 255 and clocks below 2^48, two
    nonces are equal exactly when the device ids, the four random bytes and
    the clocks are equal: a nonce determines all three. *)
Theorem getNonce_injective (d1 d2 : Z) (w1 w2 : World) :
  (0 <= d1 <= 255)%Z -> (0 <= d2 <= 255)%Z ->
  (0 <= clock w1 < 2 ^ 48)%Z -> (0 <= clock w2 < 2 ^ 48)%Z ->
  fst (getNonce (VNumber (num_of_Z d1)) w1) = fst (getNonce (VNumber (num_of_Z d2)) w2)
  <-> d1 = d2
      /\ fst (nacl_randomBytes 4 w1) = fst (nacl_randomBytes 4 w2)
      /\ clock w1 = clock w2.
Proof.
  intros Hd1 Hd2 Ht1 Ht2. rewrite !getNonce_layout by done.
  cbn [fst nacl_randomBytes]. split.
  - intros [= Hd He0 He1 He2 He3 Hb5 Hb4 Hb3 Hb2 Hb1 Hb0].
    split; [|split].
    + rewrite <- (byte_to_Z_ToUint8 d1), <- (byte_to_Z_ToUint8 d2) by done.
      by rewrite Hd.
    + cbn [seq map]. by rewrite He0, He1, He2, He3.
    + rewrite <- (be48_decode (clock w1)), <- (be48_decode (clock w2)) by done.
      unfold be48. cbn [map]. by rewrite Hb5, Hb4, Hb3, Hb2, Hb1, Hb0.
  - intros (-> & -> & ->). reflexivity.
Qed.

Lemma bad_device_id_integer_part (x : number) :
  bad_device_id (VNumber x) = false ->
  (0 <= integer_part x <= 255)%Z
  /\ ToUint8_number x = ToUint8 (integer_part x).
Proof.
  destruct x as [q| | |]; try done.
  intros Hbad. apply bad_device_id_Fin in Hbad as Hq.
  split; [by apply Qfloor_bounds|].
  cbn [ToUint8_number integer_part]. unfold Qtrunc.
  destruct Hq as [Hlo _]. apply Qle_bool_iff in Hlo. by rewrite Hlo.
Qed.

(** X9: a device id that passes the check without being an integer gives
    the nonce of its integer part, and NaN gives the nonce of 0: 1.5 and 1
    are the same device. *)
Theorem getNonce_integer_part (x : number) (w : World) :
  bad_device_id (VNumber x) = false ->
  (0 <= integer_part x <= 255)%Z
  /\ getNonce (VNumber x) w = getNonce (VNumber (num_of_Z (integer_part x))) w.
Proof.
  intros Hbad.
  destruct (bad_device_id_integer_part x Hbad) as [Hrange Hbyte].
  split; [done|].
  assert (Hbad' : bad_device_id (VNumber (num_of_Z (integer_part x))) = false).
  { unfold bad_device_id. rewrite num_lt_of_Z, num_gt_of_Z.
    destruct (Z.ltb_spec (integer_part x) 0), (Z.ltb_spec 255 (integer_part x));
      simpl; lia. }
  unfold bad_device_id in Hbad, Hbad'. unfold getNonce.
  rewrite Hbad, Hbad', Hbyte.
  unfold num_of_Z. cbn [ToUint8_number]. by rewrite Qtrunc_inject_Z.
Qed.

(** *** The facade *)

Lemma encrypt_accepted (m key : bytes) (deviceId : value) (w : World) :
  length key = 32 ->
  bad_device_id deviceId = false ->
  (clock w <= 2 ^ 48)%Z ->
  exists n,
    getNonce deviceId w = (OK n, snd (nacl_randomBytes 4 w))
    /\ length n = 24
    /\ encrypt (VUint8Array m) (VUint8Array key) deviceId w
       = (OK {| nonce := n; ciphertext := crypto_secretbox m n key |},
          snd (nacl_randomBytes 4 w)).
Proof.
  intros Hkey Hd Ht.
  destruct (getNonce_returns deviceId w Hd Ht) as (n & Hn & Hlen).
  exists n. split; [done|]. split; [done|].
  unfold encrypt. rewrite Hn. unfold nacl_secretbox.
  by rewrite Hkey, Hlen.
Qed.

Lemma encrypt_decrypt_accepted (m key : bytes) (deviceId : value) (w : World) :
  length key = 32 ->
  bad_device_id deviceId = false ->
  (clock w <= 2 ^ 48)%Z ->
  exists n,
    encrypt (VUint8Array m) (VUint8Array key) deviceId w
    = (OK {| nonce := n; ciphertext := crypto_secretbox m n key |},
       snd (nacl_randomBytes 4 w))
    /\ decrypt (VUint8Array (crypto_secretbox m n key)) (VUint8Array n)
         (VUint8Array key)
       = OK (VUint8Array m).
Proof.
  intros Hkey Hd Ht.
  destruct (encrypt_accepted m key deviceId w Hkey Hd Ht) as (n & _ & Hlen & Henc).
  exists n. split; [done|].
  unfold decrypt, nacl_secretbox_open. rewrite Hkey, Hlen. cbn [Nat.eqb negb].
  by rewrite crypto_secretbox_open_secretbox.
Qed.

(** X10: keys derived from one seed on two devices work together: for a
    byte-array seed of any length the derived secretbox key has 32 bytes,
    [encrypt] under it returns an envelope for every accepted device id
    while the clock is at most 2^48, and [decrypt] of that envelope under
    the key derived again from the seed returns the message. *)
Theorem deriveKeys_encrypt_decrypt
    (seed m : bytes) (deviceId : value) (w : World) :
  bad_device_id deviceId = false ->
  (clock w <= 2 ^ 48)%Z ->
  exists sender receiver e w',
    deriveKeys (VUint8Array seed) = OK sender
    /\ deriveKeys (VUint8Array seed) = OK receiver
    /\ length (secretboxKey sender) = 32
    /\ encrypt (VUint8Array m) (VUint8Array (secretboxKey sender)) deviceId w
       = (OK e, w')
    /\ decrypt (VUint8Array (ciphertext e)) (VUint8Array (nonce e))
         (VUint8Array (secretboxKey receiver))
       = OK (VUint8Array m).
Proof.
  intros Hd Ht.
  assert (Hkey : length (secretboxKey (derived_bundle seed)) = 32)
    by apply HKDF_ref_length.
  destruct (encrypt_decrypt_accepted m (secretboxKey (derived_bundle seed))
              deviceId w Hkey Hd Ht) as (n & Henc & Hdec).
  exists (derived_bundle seed), (derived_bundle seed). eexists _, _.
  split; [apply deriveKeys_ref|]. split; [apply deriveKeys_ref|].
  split; [exact Hkey|]. split; [exact Henc|]. exact Hdec.
Qed.

(** X11: the envelope of [encrypt] carries the nonce of [getNonce] and the
    secretbox of the message under that nonce; for an integer device id
    between 0 and 255 and a clock in the 48-bit range, the first nonce byte
    reads back as the device id and bytes 5 to 10 as the clock. *)
Theorem encrypt_envelope (m key : bytes) (deviceId : Z) (w : World) :
  length key = 32 ->
  (0 <= deviceId <= 255)%Z ->
  (0 <= clock w < 2 ^ 48)%Z ->
  exists e,
    encrypt (VUint8Array m) (VUint8Array key) (VNumber (num_of_Z deviceId)) w
    = (OK e, snd (nacl_randomBytes 4 w))
    /\ fst (getNonce (VNumber (num_of_Z deviceId)) w) = OK (nonce e)
    /\ ciphertext e = crypto_secretbox m (nonce e) key
    /\ byte_to_Z <$> nonce e !! 0 = Some deviceId
    /\ take 4 (drop 1 (nonce e)) = fst (nacl_randomBytes 4 w)
    /\ be_decode (take 6 (drop 5 (nonce e))) = clock w.
Proof.
  intros Hkey Hd Ht.
  pose proof (getNonce_layout deviceId w Hd Ht) as Hn.
  eexists. split.
  - unfold encrypt. rewrite Hn. unfold nacl_secretbox.
    rewrite Hkey. cbn [Nat.eqb negb length seq map app replicate bind be48].
    reflexivity.
  - cbn [nonce ciphertext]. rewrite Hn. cbn [fst nacl_randomBytes seq map].
    repeat split.
    + cbn [lookup list_lookup fmap option_fmap option_map]. f_equal.
      by apply byte_to_Z_ToUint8.
    + by apply be48_decode.
Qed.

(** X12: [encrypt] returns an envelope exactly when the device id passes
    the check of [getNonce], the clock is at most 2^48, the message and the
    key are byte arrays and the key has 32 bytes. *)
Theorem encrypt_succeeds_iff (message key deviceId : value) (w : World) :
  (exists e w', encrypt message key deviceId w = (OK e, w'))
  <-> bad_device_id deviceId = false
      /\ (clock w <= 2 ^ 48)%Z
      /\ (exists m, message = VUint8Array m)
      /\ (exists k, key = VUint8Array k /\ length k = 32).
Proof.
  split.
  - intros (e & w' & He). unfold encrypt in He.
    destruct (bad_device_id deviceId) eqn:Hbad.
    { by rewrite getNonce_bad_id in He. }
    destruct (Z_le_gt_dec (clock w) (2 ^ 48)) as [Ht|Ht].
    2:{ rewrite getNonce_late in He by (done || lia). done. }
    destruct (getNonce_returns deviceId w Hbad Ht) as (n & Hn & Hlen).
    rewrite Hn in He. unfold nacl_secretbox in He.
    split; [done|]. split; [done|].
    destruct message as [| | | |m]; try done.
    destruct key as [| | | |k]; try done.
    split; [by eexists|]. exists k. split; [done|].
    destruct (Nat.eqb_spec (length k) 32); [done|]. cbn [negb bind] in He. done.
  - intros (Hbad & Ht & [m ->] & (k & -> & Hk)).
    destruct (encrypt_accepted m k deviceId w Hk Hbad Ht)
      as (n & _ & _ & Henc).
    eauto.
Qed.

(** X13: a seed made by [getSeed] has 32 bytes, and [deriveKeys] turns it
    into a bundle with a 32-byte public key, a 32-byte secretbox key and a
    fingerprint of 64 characters. *)
Theorem getSeed_deriveKeys (w : World) :
  length (fst (getSeed w)) = 32
  /\ exists kb,
       deriveKeys (VUint8Array (fst (getSeed w))) = OK kb
       /\ length (publicKey kb) = 32
       /\ length (secretboxKey kb) = 32
       /\ String.length (fingerprint kb) = 64.
Proof.
  split; [apply getSeed_length|].
  exists (derived_bundle (fst (getSeed w))).
  assert (Hpk : length (publicKey (derived_bundle (fst (getSeed w)))) = 32).
  { cbn [derived_bundle publicKey].
    apply crypto_sign_publicKey_length, HKDF_ref_length. }
  split; [apply deriveKeys_ref|]. split; [exact Hpk|].
  split; [apply HKDF_ref_length|].
  change (fingerprint (derived_bundle (fst (getSeed w))))
    with (lowercase_hex (publicKey (derived_bundle (fst (getSeed w))))).
  by rewrite lowercase_hex_length, Hpk.
Qed.

End Crypto.


(** ** The module on the stand-in primitives *)

Lemma toy_hash_length (m : bytes) : length (Toy.hash m) = 64.
Proof. apply length_replicate. Qed.

Lemma toy_publicKey_length (seed : bytes) :
  length seed = 32 -> length (fst (Toy.keypair seed)) = 32.
Proof. done. Qed.

Lemma toy_tag_length (n k : bytes) : length (Toy.tag n k) = 16.
Proof.
  unfold Toy.tag. rewrite length_take, length_app, length_replicate. lia.
Qed.

Lemma toy_open_secretbox (m n k : bytes) :
  length n = 24 -> length k = 32 ->
  Toy.secretbox_open (Toy.secretbox m n k) n k = Some m.
Proof.
  intros _ _. unfold Toy.secretbox_open, Toy.secretbox, Toy.bytes_eqb.
  pose proof (toy_tag_length n k) as Htag.
  rewrite take_app_length' by done.
  rewrite drop_app_length' by done.
  rewrite length_app, Htag, bool_decide_eq_true_2 by done.
  done.
Qed.

(** C7 on an example: a two-byte message under a one-byte key. *)
Lemma hmac_is_HMAC_witness :
  exists mac,
    hmac Toy.hash (VUint8Array [x01; x02]) (VUint8Array [x0b]) = OK mac
    /\ length mac = 64.
Proof.
  destruct (hmac_is_HMAC Toy.hash toy_hash_length [x01; x02] [x0b]) as [Hmac Hlen].
  eexists. split; [exact Hmac|]. exact (Hlen _ Hmac).
Defined.

(** C8 on an example: 65 bytes, two blocks, no salt supplied. *)
Lemma getHKDF_extract_then_expand_witness :
  65 <= 255 * 64
  /\ getHKDF Toy.hash (VUint8Array [x01]) [0%Z] (VNumber (num_of_Z 65)) VUndefined
     = OK (take 65
             (HKDF_T Toy.hash (HMAC_ref Toy.hash (replicate 64 x00) [x01]) [x00] 1
              ++ HKDF_T Toy.hash (HMAC_ref Toy.hash (replicate 64 x00) [x01]) [x00] 2)).
Proof.
  assert (H : 65 <= 255 * 64) by lia.
  split; [exact H|].
  pose proof (getHKDF_extract_then_expand Toy.hash toy_hash_length
                [x01] [0%Z] 65 VUndefined H) as Hthm.
  cbv zeta in Hthm. destruct Hthm as [Hout _].
  change (Z.of_nat 65) with 65%Z in Hout.
  rewrite Hout. vm_compute. reflexivity.
Defined.

(** C9 on examples: length 0 gives the empty array, length 255 * 64 + 1
    is refused. *)
Lemma getHKDF_range_error_witness :
  getHKDF Toy.hash (VUint8Array [x01]) [0%Z] (VNumber (num_of_Z 0)) VUndefined
  = OK []
  /\ getHKDF Toy.hash (VUint8Array [x01]) [0%Z] (VNumber (num_of_Z 16321)) VUndefined
     = Throw Invalid_extract_length.
Proof.
  split.
  - destruct (getHKDF_range_error Toy.hash toy_hash_length
                (VUint8Array [x01]) [0%Z] 0 VUndefined) as (_ & _ & Hzero).
    exact (Hzero [x01] eq_refl eq_refl).
  - destruct (getHKDF_range_error Toy.hash toy_hash_length
                (VUint8Array [x01]) [0%Z] 16321 VUndefined) as (Hiff & _).
    apply Hiff. right. lia.
Defined.

(** C2 on an example: device 7 at the clock of [Toy.world]. *)
Lemma getNonce_byte_layout_witness :
  (0 <= 7 <= 255)%Z
  /\ (0 <= clock Toy.world < 2 ^ 48)%Z
  /\ exists nonce,
       fst (getNonce (VNumber (num_of_Z 7)) Toy.world) = OK nonce
       /\ length nonce = 24
       /\ take 6 (drop 5 nonce) = [x01; x5d; x3e; xf7; x98; x00].
Proof.
  assert (Hd : (0 <= 7 <= 255)%Z) by lia.
  assert (Ht : (0 <= clock Toy.world < 2 ^ 48)%Z) by (cbn [clock Toy.world]; lia).
  split; [exact Hd|]. split; [exact Ht|].
  destruct (getNonce_byte_layout 7 Toy.world Hd Ht)
    as (nonce & Hn & Hlen & _ & _ & Hbe & _).
  exists nonce. split; [exact Hn|]. split; [exact Hlen|].
  rewrite Hbe. reflexivity.
Defined.

(** C1 on an example: the seed of 32 zero bytes. *)
Lemma deriveKeys_reference_witness :
  length (replicate 32 x00) = 32
  /\ exists kb,
       deriveKeys Toy.hash Toy.keypair (VUint8Array (replicate 32 x00)) = OK kb
       /\ secretboxKey kb = HKDF_ref Toy.hash (HKDF_SALT) (replicate 32 x00) [x01] 32.
Proof.
  split; [reflexivity|].
  destruct (deriveKeys_reference Toy.hash Toy.keypair toy_hash_length
              (replicate 32 x00) eq_refl)
    as (signingSeed & sbk & _ & _ & _ & Hsbk & _ & Hkb).
  eexists. split; [exact Hkb|]. exact Hsbk.
Defined.

(** C3 on an example: the empty seed gives a key bundle. *)
Lemma deriveKeys_seed_check_witness :
  exists kb, deriveKeys Toy.hash Toy.keypair (VUint8Array []) = OK kb.
Proof.
  destruct (deriveKeys_seed_check Toy.hash Toy.keypair toy_hash_length
              (VUint8Array [])) as [_ Hok].
  exact (Hok [] eq_refl).
Defined.

(** C3 fails on a seed of 16 bytes: whatever the hash and the key pair
    function, [deriveKeys] returns a key bundle. *)
Lemma deriveKeys_accepts_16_byte_seed :
  length (replicate 16 x00) <> 32
  /\ forall (nacl_hash : bytes -> bytes) (crypto_sign_keypair : bytes -> bytes * bytes),
       (forall m, length (nacl_hash m) = 64) ->
       exists kb,
         deriveKeys nacl_hash crypto_sign_keypair (VUint8Array (replicate 16 x00))
         = OK kb.
Proof.
  split.
  - rewrite length_replicate. lia.
  - intros nacl_hash crypto_sign_keypair Hlen. eexists.
    by apply deriveKeys_ref.
Qed.

(** C4 fails on the device id 1/2, which is not an integer: [getNonce]
    returns a nonce, whose first byte is 0. *)
Lemma getNonce_accepts_fractional_id :
  (forall z : Z, ~ (1 # 2 == inject_Z z)%Q)
  /\ (clock Toy.world < 2 ^ 48)%Z
  /\ exists nonce,
       fst (getNonce (VNumber (Fin (1 # 2))) Toy.world) = OK nonce
       /\ nonce !! 0 = Some x00.
Proof.
  split; [|split].
  - intros z. unfold Qeq, inject_Z. cbn [Qnum Qden]. lia.
  - cbn [clock Toy.world]. lia.
  - eexists. split; [vm_compute; reflexivity|reflexivity].
Qed.

(** At a clock of exactly 2^48 [getNonce] returns a nonce; its timestamp
    bytes are those of the first twelve of thirteen hexadecimal digits. *)
Lemma getNonce_at_2_48 :
  fst (getNonce (VNumber (num_of_Z 0)) {| clock := 2 ^ 48; entropy := fun _ => x00 |})
  = OK (replicate 5 x00 ++ [x10] ++ replicate 18 x00).
Proof. vm_compute. reflexivity. Qed.

(** C10 on an example: the seed of 32 zero bytes. *)
Lemma fingerprint_is_hex_of_publicKey_witness :
  length (replicate 32 x00) = 32
  /\ exists kb,
       deriveKeys Toy.hash Toy.keypair (VUint8Array (replicate 32 x00)) = OK kb
       /\ String.length (fingerprint kb) = 64
       /\ decode_hex (fingerprint kb) = Some (publicKey kb).
Proof.
  split; [reflexivity|].
  destruct (fingerprint_is_hex_of_publicKey Toy.hash Toy.keypair toy_hash_length
              toy_publicKey_length (replicate 32 x00) eq_refl)
    as (kb & Hkb & Hlen & _ & _ & Hdec & _).
  exists kb. split; [exact Hkb|]. split; [exact Hlen|exact Hdec].
Defined.

(** C5 on an example: a two-byte message from device 3. *)
Lemma encrypt_decrypt_roundtrip_witness :
  length (replicate 32 x09) = 32
  /\ (0 <= 3 <= 255)%Z
  /\ (clock Toy.world < 2 ^ 48)%Z
  /\ exists e w',
       encrypt Toy.secretbox (VUint8Array [x41; x42]) (VUint8Array (replicate 32 x09))
         (VNumber (num_of_Z 3)) Toy.world = (OK e, w')
       /\ decrypt Toy.secretbox_open (VUint8Array (ciphertext e))
            (VUint8Array (nonce e)) (VUint8Array (replicate 32 x09))
          = OK (VUint8Array [x41; x42]).
Proof.
  assert (Hk : length (replicate 32 x09) = 32) by reflexivity.
  assert (Hd : (0 <= 3 <= 255)%Z) by lia.
  assert (Ht : (clock Toy.world < 2 ^ 48)%Z) by (cbn [clock Toy.world]; lia).
  split; [exact Hk|]. split; [exact Hd|]. split; [exact Ht|].
  destruct (encrypt_decrypt_roundtrip Toy.secretbox Toy.secretbox_open
              toy_open_secretbox [x41; x42] (replicate 32 x09) 3 Toy.world Hk Hd Ht)
    as (e & w' & He & _ & Hdec).
  exists e, w'. split; [exact He|exact Hdec].
Defined.

(** C6 on an example: a box too short to carry a tag gives [false]. *)
Lemma decrypt_sentinel_witness :
  length (replicate 24 x00) = 24
  /\ length (replicate 32 x00) = 32
  /\ decrypt Toy.secretbox_open (VUint8Array []) (VUint8Array (replicate 24 x00))
       (VUint8Array (replicate 32 x00))
     = OK (VBool false).
Proof.
  assert (Hn : length (replicate 24 x00) = 24) by reflexivity.
  assert (Hk : length (replicate 32 x00) = 32) by reflexivity.
  split; [exact Hn|]. split; [exact Hk|].
  destruct (decrypt_sentinel Toy.secretbox Toy.secretbox_open toy_open_secretbox
              [] (replicate 24 x00) (replicate 32 x00) Hn Hk) as (Hd & _).
  exact Hd.
Defined.

(** ** The further properties on examples *)

(** X1 on an example: a message that is not a byte array. *)
Lemma hmac_throws_only_on_bad_input_witness :
  hmac Toy.hash VUndefined (VUint8Array []) = Throw Inputs_must_be_Uint8Arrays.
Proof.
  destruct (hmac_throws_only_on_bad_input Toy.hash toy_hash_length
              VUndefined (VUint8Array [])) as [[_ Hbad] _].
  apply Hbad. left. discriminate.
Defined.

(** X2 on an example: a one-byte key followed by three zero bytes. *)
Lemma hmac_key_zero_padding_witness :
  length [x0b] + 3 <= 128
  /\ hmac Toy.hash (VUint8Array [x01]) (VUint8Array [x0b; x00; x00; x00])
     = hmac Toy.hash (VUint8Array [x01]) (VUint8Array [x0b]).
Proof.
  assert (H : length [x0b] + 3 <= 128) by (cbn [length]; lia).
  split; [exact H|].
  exact (hmac_key_zero_padding Toy.hash toy_hash_length [x01] [x0b] 3 H).
Defined.

(** X3 on an example: a key of 129 bytes. *)
Lemma hmac_long_key_witness :
  128 < length (replicate 129 x01)
  /\ hmac Toy.hash (VUint8Array [x01]) (VUint8Array (replicate 129 x01))
     = hmac Toy.hash (VUint8Array [x01]) (VUint8Array (Toy.hash (replicate 129 x01))).
Proof.
  assert (H : 128 < length (replicate 129 x01)) by (rewrite length_replicate; lia).
  split; [exact H|].
  exact (hmac_long_key Toy.hash toy_hash_length [x01] (replicate 129 x01) H).
Defined.

(** X4 on an example: 10 bytes and 70 bytes. *)
Lemma getHKDF_prefix_witness :
  10 <= 70 /\ 70 <= 255 * 64
  /\ exists out1 out2,
       getHKDF Toy.hash (VUint8Array [x01]) [0%Z] (VNumber (num_of_Z 10)) VUndefined
       = OK out1
       /\ getHKDF Toy.hash (VUint8Array [x01]) [0%Z] (VNumber (num_of_Z 70)) VUndefined
          = OK out2
       /\ out1 = take 10 out2.
Proof.
  assert (H1 : 10 <= 70) by lia. assert (H2 : 70 <= 255 * 64) by lia.
  split; [exact H1|]. split; [exact H2|].
  exact (getHKDF_prefix Toy.hash toy_hash_length [x01] [0%Z] VUndefined 10 70 H1 H2).
Defined.

(** X5 on an example: the empty salt and no salt. *)
Lemma getHKDF_zero_salts_witness :
  getHKDF Toy.hash (VUint8Array [x01]) [0%Z] (VNumber (num_of_Z 32)) (VUint8Array [])
  = getHKDF Toy.hash (VUint8Array [x01]) [0%Z] (VNumber (num_of_Z 32)) VUndefined.
Proof.
  apply (getHKDF_zero_salts Toy.hash toy_hash_length (VUint8Array [x01]) [0%Z]
           (VNumber (num_of_Z 32)) VUndefined 0).
  - discriminate.
  - lia.
Defined.

(** X7 on an example: the length 2.5 gives two bytes. *)
Lemma getHKDF_fractional_length_witness :
  (0 <= 5 # 2 <= inject_Z (255 * 64))%Q
  /\ exists okm,
       getHKDF Toy.hash (VUint8Array [x01]) [0%Z] (VNumber (Fin (5 # 2))) VUndefined
       = OK okm
       /\ length okm = 2.
Proof.
  assert (H : (0 <= 5 # 2 <= inject_Z (255 * 64))%Q).
  { split; unfold Qle; cbn [Qnum Qden inject_Z]; lia. }
  split; [exact H|].
  destruct (getHKDF_fractional_length Toy.hash toy_hash_length
              [x01] [0%Z] VUndefined (5 # 2) H) as (_ & okm & Hok & Hlen).
  exists okm. split; [exact Hok|exact Hlen].
Defined.

(** X8 on an example: devices 1 and 2 at the same clock and random bytes. *)
Lemma getNonce_injective_witness :
  (0 <= 1 <= 255)%Z /\ (0 <= 2 <= 255)%Z
  /\ (0 <= clock Toy.world < 2 ^ 48)%Z
  /\ (fst (getNonce (VNumber (num_of_Z 1)) Toy.world)
      = fst (getNonce (VNumber (num_of_Z 2)) Toy.world) -> False).
Proof.
  assert (H1 : (0 <= 1 <= 255)%Z) by lia.
  assert (H2 : (0 <= 2 <= 255)%Z) by lia.
  assert (Ht : (0 <= clock Toy.world < 2 ^ 48)%Z) by (cbn [clock Toy.world]; lia).
  split; [exact H1|]. split; [exact H2|]. split; [exact Ht|].
  intros Heq.
  destruct (proj1 (getNonce_injective 1 2 Toy.world Toy.world H1 H2 Ht Ht) Heq)
    as [Hd _].
  discriminate Hd.
Defined.

(** X9 on an example: the device id 1.5 gives the nonce of device 1. *)
Lemma getNonce_integer_part_witness :
  bad_device_id (VNumber (Fin (3 # 2))) = false
  /\ getNonce (VNumber (Fin (3 # 2))) Toy.world
     = getNonce (VNumber (num_of_Z 1)) Toy.world.
Proof.
  assert (H : bad_device_id (VNumber (Fin (3 # 2))) = false) by reflexivity.
  split; [exact H|].
  exact (proj2 (getNonce_integer_part (Fin (3 # 2)) Toy.world H)).
Defined.

(** X10 on an example: the empty seed, a two-byte message, device 3. *)
Lemma deriveKeys_encrypt_decrypt_witness :
  bad_device_id (VNumber (num_of_Z 3)) = false
  /\ (clock Toy.world <= 2 ^ 48)%Z
  /\ exists sender receiver e w',
       deriveKeys Toy.hash Toy.keypair (VUint8Array []) = OK sender
       /\ deriveKeys Toy.hash Toy.keypair (VUint8Array []) = OK receiver
       /\ encrypt Toy.secretbox (VUint8Array [x41; x42])
            (VUint8Array (secretboxKey sender)) (VNumber (num_of_Z 3)) Toy.world
          = (OK e, w')
       /\ decrypt Toy.secretbox_open (VUint8Array (ciphertext e))
            (VUint8Array (nonce e)) (VUint8Array (secretboxKey receiver))
          = OK (VUint8Array [x41; x42]).
Proof.
  assert (Hd : bad_device_id (VNumber (num_of_Z 3)) = false) by reflexivity.
  assert (Ht : (clock Toy.world <= 2 ^ 48)%Z) by (cbn [clock Toy.world]; lia).
  split; [exact Hd|]. split; [exact Ht|].
  destruct (deriveKeys_encrypt_decrypt Toy.hash Toy.keypair Toy.secretbox
              Toy.secretbox_open toy_hash_length toy_open_secretbox
              [] [x41; x42] (VNumber (num_of_Z 3)) Toy.world Hd Ht)
    as (sender & receiver & e & w' & Hs & Hr & _ & Henc & Hdec).
  exists sender, receiver, e, w'.
  split; [exact Hs|]. split; [exact Hr|]. split; [exact Henc|exact Hdec].
Defined.

(** X11 on an example: a two-byte message from device 3. *)
Lemma encrypt_envelope_witness :
  length (replicate 32 x09) = 32
  /\ (0 <= 3 <= 255)%Z
  /\ (0 <= clock Toy.world < 2 ^ 48)%Z
  /\ exists e,
       fst (encrypt Toy.secretbox (VUint8Array [x41; x42])
              (VUint8Array (replicate 32 x09)) (VNumber (num_of_Z 3)) Toy.world)
       = OK e
       /\ byte_to_Z <$> nonce e !! 0 = Some 3%Z
       /\ be_decode (take 6 (drop 5 (nonce e))) = 1500000000000%Z.
Proof.
  assert (Hk : length (replicate 32 x09) = 32) by reflexivity.
  assert (Hd : (0 <= 3 <= 255)%Z) by lia.
  assert (Ht : (0 <= clock Toy.world < 2 ^ 48)%Z) by (cbn [clock Toy.world]; lia).
  split; [exact Hk|]. split; [exact Hd|]. split; [exact Ht|].
  destruct (encrypt_envelope Toy.secretbox [x41; x42] (replicate 32 x09) 3
              Toy.world Hk Hd Ht) as (e & He & _ & _ & Hid & _ & Hclock).
  exists e. rewrite He. split; [reflexivity|]. split; [exact Hid|exact Hclock].
Defined.

(** X12 on an example: a 32-byte key and device 3. *)
Lemma encrypt_succeeds_iff_witness :
  exists e w',
    encrypt Toy.secretbox (VUint8Array [x41]) (VUint8Array (replicate 32 x09))
      (VNumber (num_of_Z 3)) Toy.world = (OK e, w').
Proof.
  apply (encrypt_succeeds_iff Toy.secretbox (VUint8Array [x41])
           (VUint8Array (replicate 32 x09)) (VNumber (num_of_Z 3)) Toy.world).
  split; [reflexivity|]. split; [cbn [clock Toy.world]; lia|].
  split; [by eexists|]. eexists. split; reflexivity.
Defined.

(** X13 on an example: the seed drawn from [Toy.world]. *)
Lemma getSeed_deriveKeys_witness :
  exists kb,
    deriveKeys Toy.hash Toy.keypair (VUint8Array (fst (getSeed Toy.world))) = OK kb
    /\ String.length (fingerprint kb) = 64.
Proof.
  destruct (getSeed_deriveKeys Toy.hash Toy.keypair toy_hash_length
              toy_publicKey_length Toy.world) as (_ & kb & Hkb & _ & _ & Hfp).
  exists kb. split; [exact Hkb|exact Hfp].
Defined.

(** ** Properties of the record utilities *)

Section RecordUtilFacts.

Import RecordUtil.

#[local] Set Default Proof Using "Type".

Variables CREATE UPDATE DELETE : Z.
Variable valueEquals : jsval -> jsval -> bool.
Variable merge : SyncRecord -> SyncRecord -> SyncRecord.
Variable string_gt_0 : string -> bool.

Lemma elem_of_keys (o : obj) (k : string) :
  k ∈ (map_to_list o).*1 <-> is_Some (o !! k).
Proof.
  rewrite list_elem_of_fmap. split.
  - intros [[k' v] [-> Hin]]. apply elem_of_map_to_list in Hin. by exists v.
  - intros [v Hv]. exists (k, v). split; [done|]. by apply elem_of_map_to_list.
Qed.

(** Proof search takes a function in the context for an implication; the
    variables of the section that a goal does not mention are cleared
    before it runs. *)
Ltac clear_unused :=
  try clear string_gt_0; try clear merge; try clear valueEquals;
  try clear CREATE; try clear UPDATE; try clear DELETE.

Ltac decide_cases :=
  clear_unused;
  repeat case_decide; try done; exfalso;
  repeat match goal with
         | H : context [ _ ∈ _ :: _ ] |- _ => rewrite elem_of_cons in H
         | H : is_Some None |- _ => by destruct H
         | H : _ /\ _ |- _ => destruct H
         end;
  naive_solver.

Lemma pickFields_fold (object : obj) (fields : list string) :
  "hasOwnProperty" ∉ dom object ->
  forall a0 : obj,
  exists a,
    fold_left (pickFields_step object) fields (OK a0) = OK a
    /\ forall k,
         a !! k = if decide (k ∈ fields /\ k <> "__proto__" /\ is_Some (object !! k))
                  then object !! k else a0 !! k.
Proof.
  intros Hown. induction fields as [|x fields IH]; intros a0.
  - exists a0. split; [done|]. intros k.
    case_decide as H; [|done]. destruct H as [Hin _]. by apply elem_of_nil in Hin.
  - cbn [fold_left]. unfold pickFields_step at 2. cbn [bind].
    rewrite bool_decide_eq_false_2 by done.
    destruct (object !! x) as [v|] eqn:Hx;
      [destruct (String.eqb_spec x "__proto__") as [->|Hne]|].
    + destruct (IH a0) as (a & Ha & Hlook). exists a. split; [done|].
      intros k. rewrite Hlook. decide_cases.
    + destruct (IH (<[x := v]> a0)) as (a & Ha & Hlook). exists a. split; [done|].
      intros k. rewrite Hlook.
      destruct (decide (k = x)) as [->|Hk].
      * rewrite lookup_insert_eq, Hx. decide_cases.
      * rewrite lookup_insert_ne by done. decide_cases.
    + destruct (IH a0) as (a & Ha & Hlook). exists a. split; [done|].
      intros k. rewrite Hlook.
      destruct (decide (k = x)) as [->|Hk].
      * rewrite Hx. decide_cases.
      * decide_cases.
Qed.

Lemma elem_of_filter_keys (F : string -> bool) (o : obj) (k : string) :
  k ∈ List.filter F (map_to_list o).*1 <-> F k = true /\ is_Some (o !! k).
Proof.
  clear_unused.
  rewrite list_elem_of_In, filter_In, <- list_elem_of_In, elem_of_keys. tauto.
Qed.

Lemma pickFields_filter (F : string -> bool) (rd : obj) :
  plain rd ->
  pickFields rd (List.filter F (map_to_list rd).*1)
  = OK (filter (fun kv => F kv.1 = true) rd).
Proof.
  intros [Hown Hproto]. unfold pickFields.
  destruct (pickFields_fold rd (List.filter F (map_to_list rd).*1) Hown ∅)
    as (a & -> & Hlook).
  f_equal. apply map_eq. intros k. rewrite Hlook, lookup_empty.
  symmetry. case_decide as Hk.
  - destruct Hk as (Hin & _ & [v Hv]). apply elem_of_filter_keys in Hin as [HF _].
    rewrite Hv. by apply map_lookup_filter_Some.
  - apply map_lookup_filter_None. destruct (rd !! k) as [v|] eqn:Hv; [right|by left].
    intros v' [= <-] HF. apply Hk. split; [|split].
    + apply elem_of_filter_keys. by rewrite Hv.
    + intros ->. apply Hproto. apply elem_of_dom. by rewrite Hv.
    + by eexists.
Qed.

(** X14: on an object without an own property [hasOwnProperty],
    [pickFields] returns the properties of the object whose names are among
    the fields, with their values, and nothing else; [__proto__] is never
    among them.  With such an own property it throws as soon as there is a
    field to look at. *)
Theorem pickFields_lookup (object : obj) (fields : list string) :
  ("hasOwnProperty" ∉ dom object ->
   exists a,
     pickFields object fields = OK a
     /\ forall k, a !! k = if decide (k ∈ fields /\ k <> "__proto__")
                           then object !! k else None)
  /\ ("hasOwnProperty" ∈ dom object -> fields <> [] ->
      pickFields object fields = Throw Not_a_function)
  /\ pickFields object [] = OK ∅.
Proof.
  split; [|split; [|done]].
  - intros Hown. destruct (pickFields_fold object fields Hown ∅) as (a & Ha & Hlook).
    exists a. split; [done|]. intros k. rewrite Hlook, lookup_empty.
    destruct (object !! k) as [v|] eqn:Hv; decide_cases.
  - intros Hown Hne. destruct fields as [|x fields]; [done|].
    unfold pickFields. cbn [fold_left]. unfold pickFields_step at 2. cbn [bind].
    rewrite bool_decide_eq_true_2 by done.
    clear. induction fields as [|y fields IH]; [done|]. apply IH.
Qed.

Lemma includes_keys (o : obj) (k : string) :
  includes (map_to_list o).*1 k = bool_decide (k ∈ dom o).
Proof.
  unfold includes. apply bool_decide_ext. by rewrite elem_of_keys, elem_of_dom.
Qed.

Lemma prop_lookup (o : obj) (k : string) (v : jsval) :
  o !! k = Some v -> prop o k = v.
Proof. unfold prop. by intros ->. Qed.

Lemma resolve_with_fields (F : string -> bool) (keep : string * jsval -> Prop)
    `{!forall kv, Decision (keep kv)} (rd : obj) :
  plain rd ->
  (forall k v, rd !! k = Some v -> F k = true <-> keep (k, v)) ->
  pickFields rd (List.filter F (map_to_list rd).*1) = OK (filter keep rd)
  /\ fold_left
       (fun (d : obj) field =>
          if negb (includes (map_to_list rd).*1 field) then d
          else <[field := prop rd field]> d)
       commonFields (filter keep rd)
     = match rd !! "hostPattern" with
       | Some v => <["hostPattern" := v]> (filter keep rd)
       | None => filter keep rd
       end.
Proof.
  intros Hplain HF. split.
  - rewrite pickFields_filter by done. f_equal.
    apply map_filter_ext. intros k v Hkv. by apply HF.
  - cbn [commonFields fold_left]. rewrite includes_keys.
    destruct (rd !! "hostPattern") as [v|] eqn:Hv.
    + rewrite bool_decide_eq_true_2 by (apply elem_of_dom; by rewrite Hv).
      cbn [negb]. by rewrite (prop_lookup _ _ _ Hv).
    + by rewrite bool_decide_eq_false_2 by (rewrite elem_of_dom, Hv; by intros [? ?]).
Qed.

Lemma insert_hostPattern (keep : string * jsval -> Prop)
    `{!forall kv, Decision (keep kv)} (rd : obj) :
  (forall v, ~ keep ("hostPattern", v)) ->
  match rd !! "hostPattern" with
  | Some v => <["hostPattern" := v]> (filter keep rd)
  | None => filter keep rd
  end = resolved_data keep rd.
Proof.
  clear_unused.
  intros Hkeep. unfold resolved_data. apply map_eq. intros k.
  destruct (decide (k = "hostPattern")) as [->|Hk].
  - rewrite lookup_union_r by (apply map_lookup_filter_None; naive_solver).
    destruct (rd !! "hostPattern") as [v|] eqn:Hv.
    + rewrite lookup_insert_eq. symmetry. by apply map_lookup_filter_Some.
    + symmetry. rewrite !(proj2 (map_lookup_filter_None _ _ _)); naive_solver.
  - rewrite lookup_union_l by (apply map_lookup_filter_None; naive_solver).
    destruct (rd !! "hostPattern") as [v|]; [by rewrite lookup_insert_ne|done].
Qed.

#[local] Abbreviation resolveRecordWithObject :=
  (RecordUtil.resolveRecordWithObject UPDATE DELETE valueEquals).
#[local] Abbreviation createFromUpdate :=
  (RecordUtil.createFromUpdate CREATE UPDATE string_gt_0).
#[local] Abbreviation resolve :=
  (RecordUtil.resolve CREATE UPDATE DELETE valueEquals string_gt_0).
#[local] Abbreviation update_keep := (RecordUtil.update_keep valueEquals).

Lemma type_data_own (record : SyncRecord) :
  type_data record (objectData record) = data record.
Proof. unfold type_data. by rewrite String.eqb_refl. Qed.

Lemma resolve_with_keep (record existingObject : SyncRecord) (rd ed : obj)
    (F : string -> bool) (keep : string * jsval -> Prop)
    `{!forall kv, Decision (keep kv)} :
  data record = Some rd ->
  type_data existingObject (objectData record) = Some ed ->
  plain rd ->
  (forall k v, rd !! k = Some v -> F k = true <-> keep (k, v)) ->
  (forall v, ~ keep ("hostPattern", v)) ->
  (resolvedData <- pickFields rd (List.filter F (map_to_list rd).*1) ;;
   if length (map_to_list resolvedData) =? 0 then OK None
   else
     let resolvedData :=
       fold_left
         (fun (d : obj) field =>
            if negb (includes (map_to_list rd).*1 field) then d
            else <[field := prop rd field]> d)
         commonFields resolvedData in
     OK (Some {| action := action record; objectData := objectData record;
                 objectId := objectId record; data := Some resolvedData;
                 rest := rest record |}))
  = OK (if decide (filter keep rd = ∅) then None
        else Some (with_data record (resolved_data keep rd))).
Proof.
  intros Hrd Hed Hplain HF Hhost.
  destruct (resolve_with_fields F keep rd Hplain HF) as [-> Hfold].
  cbn [bind]. cbv zeta. rewrite Hfold, insert_hostPattern by done.
  case_decide as Hempty.
  - by rewrite Hempty, map_to_list_empty.
  - destruct (map_to_list (filter keep rd)) as [|kv l] eqn:Hl; [|done].
    by apply map_to_list_empty_iff in Hl.
Qed.

Lemma update_keep_spec (rd ed : obj) (k : string) (v : jsval) :
  rd !! k = Some v ->
  negb (includes commonFields k)
  && (negb (includes (map_to_list ed).*1 k)
      || negb (valueEquals (prop ed k) (prop rd k))) = true
  <-> update_keep ed (k, v).
Proof.
  clear_unused.
  intros Hkv. unfold RecordUtil.update_keep. cbn [fst snd].
  rewrite includes_keys, (prop_lookup _ _ _ Hkv).
  unfold includes, commonFields.
  rewrite andb_true_iff, orb_true_iff, !negb_true_iff, !bool_decide_eq_false.
  rewrite list_elem_of_singleton. tauto.
Qed.

Lemma delete_keep_spec (rd ed : obj) (k : string) (v : jsval) :
  rd !! k = Some v ->
  negb (includes commonFields k) && includes (map_to_list ed).*1 k = true
  <-> delete_keep ed (k, v).
Proof.
  clear_unused.
  intros Hkv. unfold delete_keep. cbn [fst snd].
  rewrite includes_keys. unfold includes, commonFields.
  rewrite andb_true_iff, negb_true_iff, bool_decide_eq_false, bool_decide_eq_true.
  rewrite list_elem_of_singleton. tauto.
Qed.

(** X15: an update for an object that exists.  The fields of the record
    that count are those other than [hostPattern] that the existing object
    lacks or holds with a value that [valueEquals] tells apart.  If there is
    none, the result is null; otherwise it is the record with its data cut
    down to these fields and [hostPattern], if the record has it. *)
Theorem resolveRecordWithObject_update
    (record existingObject : SyncRecord) (rd ed : obj) :
  action record = UPDATE ->
  data record = Some rd ->
  type_data existingObject (objectData record) = Some ed ->
  plain rd ->
  let changed (kv : string * jsval) :=
    kv.1 <> "hostPattern"
    /\ (kv.1 ∉ dom ed \/ valueEquals (prop ed kv.1) kv.2 = false) in
  resolveRecordWithObject record existingObject
  = OK (if decide (filter changed rd = ∅) then None
        else Some (with_data record
                     (filter changed rd ∪ filter (fun kv => kv.1 = "hostPattern") rd))).
Proof.
  intros Hact Hrd Hed Hplain changed.
  unfold RecordUtil.resolveRecordWithObject.
  rewrite type_data_own, Hrd, Hed. cbn [Object_keys bind default from_option id].
  destruct (Z.eqb_spec (action record) UPDATE) as [_|Hno]; [|done].
  cbn [bind].
  apply (resolve_with_keep record existingObject rd ed _ (update_keep ed));
    try done.
  - apply update_keep_spec.
  - by intros v [? _].
Qed.

(** X16: a deletion for an object that exists.  The fields of the record
    that count are those other than [hostPattern] that the existing object
    has.  If there is none, the result is null; otherwise it is the record
    with its data cut down to these fields and [hostPattern], if the record
    has it. *)
Theorem resolveRecordWithObject_delete
    (record existingObject : SyncRecord) (rd ed : obj) :
  action record = DELETE ->
  UPDATE <> DELETE ->
  data record = Some rd ->
  type_data existingObject (objectData record) = Some ed ->
  plain rd ->
  let present (kv : string * jsval) :=
    kv.1 <> "hostPattern" /\ kv.1 ∈ dom ed in
  resolveRecordWithObject record existingObject
  = OK (if decide (filter present rd = ∅) then None
        else Some (with_data record
                     (filter present rd ∪ filter (fun kv => kv.1 = "hostPattern") rd))).
Proof.
  intros Hact Hne Hrd Hed Hplain present.
  unfold RecordUtil.resolveRecordWithObject.
  rewrite type_data_own, Hrd, Hed. cbn [Object_keys bind default from_option id].
  destruct (Z.eqb_spec (action record) UPDATE) as [Heq|_]; [congruence|].
  destruct (Z.eqb_spec (action record) DELETE) as [_|Hno]; [|done].
  cbn [bind].
  apply (resolve_with_keep record existingObject rd ed _ (delete_keep ed));
    try done.
  - apply delete_keep_spec.
  - by intros v [? _].
Qed.

(** X17: [resolveRecordWithObject] throws a TypeError when the record has
    no data object, or the existing object has none under the type of the
    record, whatever the action; with both data objects it throws its
    action error exactly when the action is neither UPDATE nor DELETE. *)
Theorem resolveRecordWithObject_errors (record existingObject : SyncRecord) :
  (data record = None ->
   resolveRecordWithObject record existingObject = Throw Not_an_object)
  /\ (type_data existingObject (objectData record) = None ->
      resolveRecordWithObject record existingObject = Throw Not_an_object)
  /\ (forall rd ed,
        data record = Some rd ->
        type_data existingObject (objectData record) = Some ed ->
        plain rd ->
        (resolveRecordWithObject record existingObject = Throw Invalid_record_action
         <-> action record <> UPDATE /\ action record <> DELETE)).
Proof.
  clear_unused.
  split; [|split].
  - intros Hrd. unfold RecordUtil.resolveRecordWithObject.
    by rewrite type_data_own, Hrd.
  - intros Hed. unfold RecordUtil.resolveRecordWithObject.
    rewrite type_data_own, Hed. by destruct (data record).
  - intros rd ed Hrd Hed Hplain.
    destruct (decide (action record = UPDATE)) as [Hu|Hu].
    { split; [|tauto]. intros Hthrow. exfalso. revert Hthrow.
      unfold RecordUtil.resolveRecordWithObject.
      rewrite type_data_own, Hrd, Hed.
      cbn [Object_keys bind default from_option id].
      destruct (Z.eqb_spec (action record) UPDATE) as [_|Hno]; [|done].
      cbn [bind].
      rewrite (resolve_with_keep record existingObject rd ed _ (update_keep ed))
        by (done || apply update_keep_spec || by intros v [? _]).
      by case_decide. }
    destruct (decide (action record = DELETE)) as [Hd|Hd].
    { split; [|tauto]. intros Hthrow. exfalso. revert Hthrow.
      unfold RecordUtil.resolveRecordWithObject.
      rewrite type_data_own, Hrd, Hed.
      cbn [Object_keys bind default from_option id].
      destruct (Z.eqb_spec (action record) UPDATE) as [|_]; [done|].
      destruct (Z.eqb_spec (action record) DELETE) as [_|Hno]; [|done].
      cbn [bind].
      rewrite (resolve_with_keep record existingObject rd ed _ (delete_keep ed))
        by (done || apply delete_keep_spec || by intros v [? _]).
      by case_decide. }
    split; [done|]. intros _.
    unfold RecordUtil.resolveRecordWithObject.
    rewrite type_data_own, Hrd, Hed. cbn [Object_keys bind default from_option id].
    destruct (Z.eqb_spec (action record) UPDATE); [done|].
    by destruct (Z.eqb_spec (action record) DELETE).
Qed.

(** *** Creating from an update *)

Lemma assign_empty (source : obj) :
  "__proto__" ∉ dom source -> assign ∅ source = source.
Proof.
  intros Hp. unfold assign. rewrite map_union_empty.
  apply delete_id. by apply not_elem_of_dom.
Qed.

Lemma assign_union (target source : obj) :
  "__proto__" ∉ dom source -> assign target source = source ∪ target.
Proof.
  intros Hp. unfold assign. f_equal. apply delete_id. by apply not_elem_of_dom.
Qed.

Lemma site_defaults_no_proto (location : jsval) (t1 t2 : Z) :
  "__proto__" ∉ dom (site_defaults location t1 t2).
Proof.
  clear_unused.
  unfold site_defaults. rewrite !dom_insert_L, dom_empty_L. set_solver.
Qed.

Lemma createSiteProps_object (t1 t2 : Z) (site : obj) :
  "__proto__" ∉ dom site ->
  createSitePropsFromUpdateSite t1 t2 (JObj site)
  = OK (site ∪ site_defaults (prop site "location") t1 t2).
Proof.
  intros Hp. unfold createSitePropsFromUpdateSite. cbn [get bind own_props].
  fold (site_defaults (prop site "location") t1 t2).
  by rewrite (assign_empty _ (site_defaults_no_proto _ _ _)), assign_union.
Qed.

(** X18: an update of a history site that has no object yet becomes a
    creation when its location is truthy: the action is CREATE and the data
    are those of the record, completed by an empty title, the location as
    custom title and the two clock readings as access and creation time;
    what the record gives always wins.  Without a truthy location the
    result is null, and without a data object it throws. *)
Theorem createFromUpdate_historySite (record : SyncRecord) (t1 t2 : Z) :
  action record = UPDATE ->
  objectData record = "historySite" ->
  (forall site, data record = Some site -> "__proto__" ∉ dom site ->
   createFromUpdate (Some record) t1 t2
   = OK (if truthy (prop site "location")
         then Some (with_action_data record CREATE
                      (site ∪ site_defaults (prop site "location") t1 t2))
         else None))
  /\ (data record = None ->
      createFromUpdate (Some record) t1 t2 = Throw (Record_missing "historySite")).
Proof.
  intros Hact Htype.
  assert (Hdata : type_data record "historySite" = data record).
  { by rewrite <- Htype, type_data_own. }
  split.
  - intros site Hsite Hp. unfold RecordUtil.createFromUpdate.
    rewrite Hact, Z.eqb_refl, Htype. cbn [negb String.eqb Ascii.eqb Bool.eqb andb].
    cbn [createFromUpdateHistorySite CreateFromUpdate String.eqb bind].
    unfold isValidHistorySite. rewrite Hdata, Hsite. cbn [bind].
    destruct (truthy (prop site "location")); cbn [negb]; [|done].
    by rewrite createSiteProps_object.
  - intros Hnone. unfold RecordUtil.createFromUpdate.
    rewrite Hact, Z.eqb_refl, Htype. cbn [negb String.eqb Ascii.eqb Bool.eqb andb].
    cbn [createFromUpdateHistorySite CreateFromUpdate String.eqb bind].
    by rewrite Hdata, Hnone.
Qed.

(** X19: an update of a site setting that has no object yet becomes a
    creation with the same data when its host pattern is truthy, and null
    otherwise. *)
Theorem createFromUpdate_siteSetting (record : SyncRecord) (siteSetting : obj)
    (t1 t2 : Z) :
  action record = UPDATE ->
  objectData record = "siteSetting" ->
  data record = Some siteSetting ->
  createFromUpdate (Some record) t1 t2
  = OK (if truthy (prop siteSetting "hostPattern")
        then Some (with_action_data record CREATE siteSetting)
        else None).
Proof.
  intros Hact Htype Hdata.
  assert (Hd : type_data record "siteSetting" = Some siteSetting).
  { by rewrite <- Htype, type_data_own. }
  unfold RecordUtil.createFromUpdate.
  rewrite Hact, Z.eqb_refl, Htype. cbn [negb String.eqb Ascii.eqb Bool.eqb andb].
  cbn [createFromUpdateSiteSetting CreateFromUpdate String.eqb bind].
  unfold isValidSiteSetting. rewrite Hd. cbn [bind].
  by destruct (truthy (prop siteSetting "hostPattern")).
Qed.

Lemma get_truthy (v : jsval) (k : string) :
  truthy v = true -> get v k = OK (field v k).
Proof. by destruct v. Qed.

Lemma folder_test (v : jsval) :
  number_or_missing v ->
  (if truthy v then gt_0 string_gt_0 v else OK false) = OK (positive_number v).
Proof.
  destruct v as [| | |[q| | |]| |]; try done. intros _.
  cbn [truthy gt_0 positive_number].
  destruct (Qeq_bool q 0) eqn:Hq; [|done]. cbn [negb]. f_equal.
  apply Qeq_bool_iff in Hq. unfold num_gt, num_lt, num_of_Z.
  symmetry. apply negb_false_iff, Qle_bool_iff. rewrite Hq. apply Qle_refl.
Qed.

Lemma isValidBookmark_value (record : SyncRecord) (bookmark : obj) :
  type_data record "bookmark" = Some bookmark ->
  number_or_missing (prop bookmark "folderId") ->
  isValidBookmark string_gt_0 record
  = OK (truthy (prop bookmark "site")
        && (truthy (field (prop bookmark "site") "location")
            || (truthy (field (prop bookmark "site") "customTitle")
                && positive_number (prop bookmark "folderId")))).
Proof.
  intros Hd Hfid. unfold isValidBookmark. rewrite Hd.
  destruct (truthy (prop bookmark "site")) eqn:Hsite; cbn [negb andb]; [|done].
  rewrite !get_truthy by done. cbn [bind].
  destruct (truthy (field (prop bookmark "site") "location")); cbn [orb]; [done|].
  destruct (truthy (field (prop bookmark "site") "customTitle"));
    cbn [negb andb]; [|done].
  pose proof (folder_test _ Hfid) as Hf.
  destruct (truthy (prop bookmark "folderId")); cbn [negb]; [done|].
  by injection Hf as <-.
Qed.

(** X20: an update of a bookmark that has no object yet, with a folder id
    that is a number or missing.  It counts when its site is truthy and has
    a truthy location, or a truthy custom title together with a folder id
    above 0; otherwise the result is null.  With a folder id above 0 the
    creation has the data of the record and [isFolder] true unless the
    record says otherwise, and the site gets no defaults.  Without one it
    has [isFolder] false unless the record says otherwise, and its site is
    the site of the record completed by the defaults of a site. *)
Theorem createFromUpdate_bookmark (record : SyncRecord) (bookmark : obj)
    (t1 t2 : Z) :
  action record = UPDATE ->
  objectData record = "bookmark" ->
  data record = Some bookmark ->
  "__proto__" ∉ dom bookmark ->
  number_or_missing (prop bookmark "folderId") ->
  let site := prop bookmark "site" in
  let folder := positive_number (prop bookmark "folderId") in
  let valid :=
    truthy site
    && (truthy (field site "location") || (truthy (field site "customTitle") && folder)) in
  (valid = false -> createFromUpdate (Some record) t1 t2 = OK None)
  /\ (valid = true -> folder = true ->
      createFromUpdate (Some record) t1 t2
      = OK (Some (with_action_data record CREATE
                    (bookmark ∪ {["isFolder" := JBool true]}))))
  /\ (valid = true -> folder = false ->
      exists s,
        site = JObj s
        /\ createFromUpdate (Some record) t1 t2
           = OK (Some (with_action_data record CREATE
                         (<["site" := JObj (delete "__proto__" s
                                            ∪ site_defaults (prop s "location") t1 t2)]>
                            (bookmark ∪ {["isFolder" := JBool false]}))))).
Proof.
  clear_unused.
  intros Hact Htype Hdata Hp Hfid site folder valid.
  assert (Hd : type_data record "bookmark" = Some bookmark).
  { by rewrite <- Htype, type_data_own. }
  assert (Hrun : createFromUpdate (Some record) t1 t2
                 = (if negb valid then OK None
                    else resolvedTypeProps <- mapBookmark string_gt_0 t1 t2 bookmark ;;
                         OK (Some (with_action_data record CREATE resolvedTypeProps)))).
  { unfold RecordUtil.createFromUpdate.
    rewrite Hact, Z.eqb_refl, Htype. cbn [negb String.eqb Ascii.eqb Bool.eqb andb].
    cbn [createFromUpdateBookmark CreateFromUpdate String.eqb bind].
    rewrite Hd, (isValidBookmark_value record bookmark) by done. done. }
  assert (Hmap : mapBookmark string_gt_0 t1 t2 bookmark
                 = (if folder then OK (bookmark ∪ {["isFolder" := JBool true]})
                    else site' <- createSitePropsFromUpdateSite t1 t2 site ;;
                         OK (<["site" := JObj site']>
                               (bookmark ∪ {["isFolder" := JBool false]})))).
  { unfold mapBookmark. rewrite folder_test by done. cbn [bind]. fold folder.
    destruct folder.
    - f_equal. rewrite assign_union by done. f_equal.
    - fold site. destruct (createSitePropsFromUpdateSite t1 t2 site) as [site'|e];
        cbn [bind]; [|done].
      f_equal. rewrite assign_empty by (rewrite dom_insert_L, dom_empty_L; set_solver).
      rewrite (assign_union _ bookmark) by done.
      rewrite assign_union by (rewrite dom_insert_L, dom_empty_L; set_solver).
      by rewrite <- insert_union_l, (left_id_L ∅ (∪)). }
  rewrite Hrun, Hmap. split; [|split].
  - by intros ->.
  - by intros -> ->.
  - intros Hv Hf. rewrite Hv, Hf. cbn [negb].
    unfold valid in Hv. rewrite Hf, andb_false_r, orb_false_r in Hv.
    apply andb_true_iff in Hv as [_ Hloc].
    destruct site as [| | | | |s] eqn:Hs; try done. exists s. split; [done|].
    unfold createSitePropsFromUpdateSite. cbn [get bind own_props].
    fold (site_defaults (prop s "location") t1 t2).
    rewrite (assign_empty _ (site_defaults_no_proto _ _ _)). done.
Qed.

(** *** What [resolve] returns *)

Lemma resolveRecordWithObject_result (record existingObject resolved : SyncRecord) :
  resolveRecordWithObject record existingObject = OK (Some resolved) ->
  exists rd d,
    data record = Some rd /\ resolved = with_data record d /\ d ⊆ rd /\ d <> ∅.
Proof.
  unfold RecordUtil.resolveRecordWithObject. rewrite type_data_own.
  destruct (data record) as [rd|]; [|done].
  destruct (type_data existingObject (objectData record)) as [ed|]; [|done].
  cbn [Object_keys bind default from_option id].
  set (resolveField := if (action record =? UPDATE)%Z then _ else _).
  destruct resolveField as [F|e]; [|done]. cbn [bind].
  destruct (decide ("hasOwnProperty" ∈ dom rd)) as [Hhas|Hhas].
  { destruct (List.filter F (map_to_list rd).*1) as [|x fields] eqn:Hfields.
    - by cbn.
    - by rewrite (proj1 (proj2 (pickFields_lookup rd (x :: fields)))). }
  destruct (proj1 (pickFields_lookup rd (List.filter F (map_to_list rd).*1)) Hhas)
    as (a & -> & Hlook).
  cbn [bind]. destruct (length (map_to_list a) =? 0) eqn:Hl; [done|].
  intros [= <-]. apply Nat.eqb_neq in Hl.
  assert (Ha : a <> ∅).
  { intros ->. by rewrite map_to_list_empty in Hl. }
  assert (Hsub : a ⊆ rd).
  { apply map_subseteq_spec. intros k v. rewrite Hlook. by case_decide. }
  eexists rd, _. split; [done|]. split; [done|].
  cbn [commonFields fold_left]. rewrite includes_keys.
  case_bool_decide as Hhost; cbn [negb]; [|done].
  apply elem_of_dom in Hhost as [v Hv]. rewrite (prop_lookup _ _ _ Hv). split.
  - by apply insert_subseteq_l.
  - apply insert_non_empty.
Qed.

Lemma CreateFromUpdate_result (type : string)
    (isValidRecord : SyncRecord -> result bool)
    (mapUpdateToCreate : obj -> result obj)
    (f : SyncRecord -> result (option SyncRecord)) (record resolved : SyncRecord) :
  CreateFromUpdate CREATE type isValidRecord mapUpdateToCreate = OK f ->
  f record = OK (Some resolved) ->
  exists props, resolved = with_action_data record CREATE props.
Proof.
  unfold CreateFromUpdate. destruct (String.eqb type ""); [done|].
  intros [= <-]. destruct (type_data record type) as [props|]; [|done].
  destruct (isValidRecord record) as [[|]|]; cbn [bind negb]; [|done|done].
  destruct (mapUpdateToCreate props) as [resolvedTypeProps|]; cbn [bind]; [|done].
  intros [= <-]. by eexists.
Qed.

Lemma createFromUpdate_result (record resolved : SyncRecord) (t1 t2 : Z) :
  createFromUpdate (Some record) t1 t2 = OK (Some resolved) ->
  exists props, resolved = with_action_data record CREATE props.
Proof.
  unfold RecordUtil.createFromUpdate.
  destruct (negb (action record =? UPDATE)%Z); [done|].
  destruct (String.eqb (objectData record) "bookmark").
  { destruct (createFromUpdateBookmark CREATE string_gt_0 t1 t2) as [f|] eqn:Hf;
      cbn [bind]; [|done].
    by apply (CreateFromUpdate_result _ _ _ _ _ _ Hf). }
  destruct (String.eqb (objectData record) "historySite").
  { destruct (createFromUpdateHistorySite CREATE t1 t2) as [f|] eqn:Hf;
      cbn [bind]; [|done].
    by apply (CreateFromUpdate_result _ _ _ _ _ _ Hf). }
  destruct (String.eqb (objectData record) "siteSetting"); [|done].
  destruct (createFromUpdateSiteSetting CREATE) as [f|] eqn:Hf; cbn [bind]; [|done].
  by apply (CreateFromUpdate_result _ _ _ _ _ _ Hf).
Qed.

(** X21: what [resolve] returns, when it is a record, has the
    [objectData], the id and the other properties of the record it was
    given.  Without an existing object it is a creation.  With one it is
    not: it has the action of the record, and for data a part of the data
    of the record that is not empty. *)
Theorem resolve_result (record resolved : SyncRecord)
    (existingObject : option SyncRecord) (t1 t2 : Z) :
  resolve (Some record) existingObject t1 t2 = OK (Some resolved) ->
  objectData resolved = objectData record
  /\ objectId resolved = objectId record
  /\ rest resolved = rest record
  /\ match existingObject with
     | None => action resolved = CREATE
     | Some _ =>
         action resolved = action record
         /\ action resolved <> CREATE
         /\ exists rd d,
              data record = Some rd /\ data resolved = Some d /\ d ⊆ rd /\ d <> ∅
     end.
Proof.
  unfold RecordUtil.resolve.
  destruct (Z.eqb_spec (action record) CREATE) as [Hc|Hc].
  { destruct existingObject; [done|]. by intros [= <-]. }
  assert (Hwith : forall existing,
            resolveRecordWithObject record existing = OK (Some resolved) ->
            objectData resolved = objectData record
            /\ objectId resolved = objectId record
            /\ rest resolved = rest record
            /\ action resolved = action record
            /\ action resolved <> CREATE
            /\ exists rd d,
                 data record = Some rd /\ data resolved = Some d /\ d ⊆ rd /\ d <> ∅).
  { intros existing Hres.
    apply resolveRecordWithObject_result in Hres as (rd & d & Hrd & -> & Hsub & Hd).
    repeat split; try done. by exists rd, d. }
  assert (Hcreate : createFromUpdate (Some record) t1 t2 = OK (Some resolved) ->
            objectData resolved = objectData record
            /\ objectId resolved = objectId record
            /\ rest resolved = rest record
            /\ action resolved = CREATE).
  { intros Hres. by apply createFromUpdate_result in Hres as (props & ->). }
  destruct (action record =? UPDATE)%Z.
  { destruct existingObject as [existing|]; [apply Hwith|apply Hcreate]. }
  destruct (action record =? DELETE)%Z; [|done].
  destruct existingObject as [existing|]; [apply Hwith|done].
Qed.

(** *** Merging records *)

#[local] Abbreviation mergeRecord := (RecordUtil.mergeRecord merge).
#[local] Abbreviation mergeRecords_step := (RecordUtil.mergeRecords_step merge).
#[local] Abbreviation mergeRecords_loop := (RecordUtil.mergeRecords_loop merge).
#[local] Abbreviation mergeRecords := (RecordUtil.mergeRecords merge).

Lemma for_range_result_snoc {St : Type} (i c : nat)
    (body : nat -> St -> result St) (s : St) :
  for_range_result i (S c) body s
  = (s' <- for_range_result i c body s ;; body (i + c) s').
Proof.
  revert i s. induction c as [|c IH]; intros i s.
  - cbn [for_range_result bind]. rewrite Nat.add_0_r. by destruct (body i s).
  - change (for_range_result i (S (S c)) body s)
      with (s' <- body i s ;; for_range_result (S i) (S c) body s').
    change (for_range_result i (S c) body s)
      with (s' <- body i s ;; for_range_result (S i) c body s').
    destruct (body i s) as [s'|e]; cbn [bind]; [|done].
    rewrite IH. by replace (S i + c) with (i + S c) by lia.
Qed.

Lemma mergeRecords_copies (input : list (SyncRecord * option SyncRecord)) (k : nat) :
  k <= length input ->
  NoDup (ids (take k input)) ->
  exists st,
    for_range_result 0 k (mergeRecords_step (map snd input))
      {| records := map fst input; idsAndIndices := ∅; outputList := [] |} = OK st
    /\ copied input k st.
Proof.
  induction k as [|k IH]; intros Hk Hnd.
  - eexists. split; [done|]. split; [done|]. split; [done|].
    intros id i. cbn [idsAndIndices]. rewrite lookup_empty. split; [done|lia].
  - destruct (lookup_lt_is_Some_2 input k) as [[record object] Hn]; [lia|].
    unfold ids in Hnd. rewrite (take_S_r _ _ _ Hn), fmap_app in Hnd.
    apply NoDup_app in Hnd as (Hnd & Hnew & _).
    destruct IH as (st & Hrun & Hrec & Hout & Hids); [lia|done|].
    rewrite for_range_result_snoc, Hrun. cbn [bind Nat.add].
    unfold RecordUtil.mergeRecords_step.
    rewrite Hrec, !list_lookup_fmap_Some_2 with (x := (record, object)) by done.
    cbn [fst snd].
    destruct (idsAndIndices st !! objectId record) as [i|] eqn:Hi.
    { exfalso. apply Hids in Hi as [Hlt Hi]. unfold id_at in Hi.
      destruct (input !! i) as [item|] eqn:Hitem; [|done]. injection Hi as Hi.
      apply (Hnew (objectId record)); [|cbn; left; done].
      apply list_elem_of_fmap. exists item. split; [done|].
      apply list_elem_of_lookup. exists i. by rewrite lookup_take_lt. }
    eexists. split; [done|]. split; [done|]. split.
    + cbn [outputList]. rewrite (take_S_r _ _ _ Hn), imap_app. cbn [imap].
      rewrite Hout, length_take, Nat.add_0_r.
      by replace (k `min` length input) with k by lia.
    + intros id i. cbn [idsAndIndices].
      rewrite Hout, length_imap, length_take.
      replace (k `min` length input) with k by lia.
      destruct (decide (id = objectId record)) as [->|Hne].
      * rewrite lookup_insert_eq. split.
        -- intros [= <-]. split; [lia|]. unfold id_at. by rewrite Hn.
        -- intros [Hlt Hat]. f_equal. destruct (decide (i = k)) as [|Hik]; [done|].
           exfalso. assert (Hold : idsAndIndices st !! objectId record = Some i).
           { apply Hids. split; [lia|done]. }
           by rewrite Hi in Hold.
      * rewrite lookup_insert_ne by done. rewrite Hids. split.
        -- intros [Hlt Hat]. split; [lia|done].
        -- intros [Hlt Hat]. split; [|done].
           destruct (decide (i = k)) as [->|]; [|lia].
           unfold id_at in Hat. rewrite Hn in Hat. by injection Hat as <-.
Qed.

Lemma read_items_imap (store : list SyncRecord)
    (l : list (SyncRecord * option SyncRecord)) (f : nat -> nat) :
  (forall i item, l !! i = Some item -> store !! f i = Some item.1) ->
  read_items store (imap (fun i item => (f i, item.2)) l) = l.
Proof.
  unfold read_items. revert f.
  induction l as [|[record object] l IH]; intros f Hf; [done|].
  cbn [imap]. change (omap ?g (?x :: ?t))
    with (match g x with Some y => y :: omap g t | None => omap g t end).
  cbn [fst snd]. rewrite (Hf 0 (record, object)) by done.
  cbn [fmap option_fmap option_map]. f_equal. apply (IH (f ∘ S)). intros i item Hi. by apply (Hf (S i)).
Qed.

(** X22: when the ids of the records all differ, [mergeRecords] returns
    its input. *)
Theorem mergeRecords_distinct (input : list (SyncRecord * option SyncRecord)) :
  NoDup (ids input) ->
  mergeRecords input = OK input.
Proof.
  intros Hnd.
  destruct (mergeRecords_copies input (length input)) as (st & Hrun & Hrec & Hout & _).
  { done. } { by rewrite firstn_all. }
  unfold RecordUtil.mergeRecords, RecordUtil.mergeRecords_loop.
  rewrite Hrun. cbn [bind]. rewrite Hrec, Hout, firstn_all. f_equal.
  apply read_items_imap. intros i item Hi. by rewrite list_lookup_fmap, Hi.
Qed.

Lemma mergeRecords_step_invariant (input : list (SyncRecord * option SyncRecord))
    (n : nat) (st : MergeState) :
  n < length input ->
  merge_invariant input n st ->
  match mergeRecords_step (map snd input) n st with
  | OK st' => merge_invariant input (S n) st'
  | Throw e =>
      e = Mismatched_objectData
      /\ exists record1 record2,
           record1 ∈ records st /\ record2 ∈ records st
           /\ objectData record1 <> objectData record2
  end.
Proof.
  intros Hn (Hlen & Hlater & Hdom & Hsize & Hidx & Hle & Hrefs).
  destruct (lookup_lt_is_Some_2 input n) as [[record object] Hitem]; [done|].
  assert (Hrecord : records st !! n = Some record).
  { rewrite Hlater by done. by rewrite list_lookup_fmap, Hitem. }
  assert (Hids : ids (take (S n) input) = ids (take n input) ++ [objectId record]).
  { unfold ids. by rewrite (take_S_r _ _ _ Hitem), fmap_app. }
  unfold RecordUtil.mergeRecords_step.
  rewrite Hrecord, list_lookup_fmap_Some_2 with (x := (record, object)) by done.
  cbn [snd].
  destruct (idsAndIndices st !! objectId record) as [previousIndex|] eqn:Hid.
  - pose proof (Hidx _ _ Hid) as Hprev.
    destruct (lookup_lt_is_Some_2 (records st) previousIndex)
      as [previousRecord Hprevious]; [lia|].
    rewrite Hprevious. unfold RecordUtil.mergeRecord.
    destruct (String.eqb_spec (objectData previousRecord) (objectData record))
      as [Hsame|Hdiff]; cbn [negb bind].
    + unfold merge_invariant. cbn [records idsAndIndices outputList].
      rewrite !length_insert, Hids, list_to_set_app_L, list_to_set_singleton_L, <- Hdom.
      assert (Hin : objectId record ∈ dom (idsAndIndices st)).
      { apply elem_of_dom. by rewrite Hid. }
      repeat split; try done.
      * intros j Hj. rewrite list_lookup_insert_ne by lia. apply Hlater. lia.
      * set_solver.
      * lia.
      * apply Forall_insert; [done|]. cbn [fst]. lia.
    + split; [done|]. exists previousRecord, record.
      repeat split; [| |done]; by eapply list_elem_of_lookup_2.
  - unfold merge_invariant. cbn [records idsAndIndices outputList].
    assert (Hnot : objectId record ∉ dom (idsAndIndices st)).
    { by apply not_elem_of_dom. }
    rewrite length_app, Hids, list_to_set_app_L, list_to_set_singleton_L, <- Hdom.
    rewrite dom_insert_L. cbn [length].
    repeat split; try done.
    * intros j Hj. apply Hlater. lia.
    * set_solver.
    * rewrite size_union by set_solver. rewrite size_singleton. lia.
    * intros id i. destruct (decide (id = objectId record)) as [->|Hne].
      -- rewrite lookup_insert_eq. intros [= <-]. lia.
      -- rewrite lookup_insert_ne by done. intros Hi. apply Hidx in Hi. lia.
    * lia.
    * apply Forall_app. split; [done|]. by apply Forall_singleton.
Qed.

Lemma mergeRecords_run (input : list (SyncRecord * option SyncRecord)) (k : nat) :
  k <= length input ->
  match for_range_result 0 k (mergeRecords_step (map snd input))
          {| records := input.*1; idsAndIndices := ∅; outputList := [] |} with
  | OK st => merge_invariant input k st
  | Throw e => e = Mismatched_objectData
  end.
Proof.
  induction k as [|k IH]; intros Hk.
  - cbn [for_range_result]. unfold merge_invariant.
    cbn [records idsAndIndices outputList length].
    rewrite length_fmap, dom_empty_L, size_empty.
    repeat split; try done.
  - rewrite for_range_result_snoc.
    specialize (IH ltac:(lia)).
    destruct (for_range_result 0 k _ _) as [st|e]; cbn [bind Nat.add]; [|done].
    pose proof (mergeRecords_step_invariant input k st ltac:(lia) IH) as Hstep.
    destruct (mergeRecords_step _ k st); [done|]. by destruct Hstep.
Qed.

Lemma read_items_length (store : list SyncRecord)
    (items : list (nat * option SyncRecord)) :
  Forall (fun item : nat * option SyncRecord => item.1 < length store) items ->
  length (read_items store items) = length items.
Proof.
  unfold read_items. induction 1 as [|item items Hitem _ IH]; [done|].
  change (omap ?g (?x :: ?t))
    with (match g x with Some y => y :: omap g t | None => omap g t end).
  destruct (lookup_lt_is_Some_2 store item.1) as [r Hr]; [done|].
  rewrite Hr. cbn [fmap option_fmap option_map length]. by rewrite IH.
Qed.

(** X23: [mergeRecords] throws nothing but its error on mismatched
    [objectData]; when it returns, its output has one item for each
    distinct id of the input. *)
Theorem mergeRecords_length (input : list (SyncRecord * option SyncRecord)) :
  match mergeRecords input with
  | OK output => length output = size (list_to_set (ids input) : gset (list Z))
  | Throw e => e = Mismatched_objectData
  end.
Proof.
  unfold RecordUtil.mergeRecords, RecordUtil.mergeRecords_loop.
  pose proof (mergeRecords_run input (length input) ltac:(done)) as Hrun.
  change (map fst input) with (input.*1).
  destruct (for_range_result 0 (length input) _ _) as [st|e]; cbn [bind]; [|done].
  destruct Hrun as (Hlen & _ & Hdom & Hsize & _ & _ & Hrefs).
  rewrite read_items_length by (by rewrite Hlen).
  by rewrite Hsize, Hdom, firstn_all.
Qed.

Lemma imap_insert {A B : Type} (f : nat -> A -> B) (l : list A) (i : nat) (y : A) :
  imap f (<[i := y]> l) = <[i := f i y]> (imap f l).
Proof.
  revert f i. induction l as [|x l IH]; intros f i; [done|].
  destruct i as [|i]; [done|]. cbn. f_equal. apply (IH (f ∘ S)).
Qed.

(** X24: one more item for an id that the input has once already, after
    items whose ids all differ.  The record of the earlier item is merged
    with the later record and stays in its place, with the object of the
    later item; the other items are returned as they are.  The two records
    must agree on [objectData], or [mergeRecords] throws. *)
Theorem mergeRecords_trailing_duplicate
    (l1 l2 : list (SyncRecord * option SyncRecord))
    (record1 record2 : SyncRecord) (object1 object2 : option SyncRecord) :
  NoDup (ids (l1 ++ (record1, object1) :: l2)) ->
  objectId record2 = objectId record1 ->
  mergeRecords (l1 ++ (record1, object1) :: l2 ++ [(record2, object2)])
  = if String.eqb (objectData record1) (objectData record2)
    then OK (l1 ++ (merge record1 record2, object2) :: l2)
    else Throw Mismatched_objectData.
Proof.
  intros Hnd Hid.
  set (L := l1 ++ (record1, object1) :: l2).
  set (input := l1 ++ (record1, object1) :: l2 ++ [(record2, object2)]).
  assert (Hinput : input = L ++ [(record2, object2)]).
  { unfold input, L. by rewrite <- app_assoc. }
  assert (Hlen : length input = S (length L)).
  { rewrite Hinput, length_app. cbn. lia. }
  assert (Htake : take (length L) input = L).
  { by rewrite Hinput, take_app_length. }
  assert (Hl1 : length l1 < length L).
  { unfold L. rewrite length_app. cbn. lia. }
  assert (Hfirst : L !! length l1 = Some (record1, object1)).
  { unfold L. by rewrite list_lookup_middle. }
  destruct (mergeRecords_copies input (length L)) as (st & Hrun & Hrec & Hout & Hids).
  { lia. } { by rewrite Htake. }
  unfold RecordUtil.mergeRecords, RecordUtil.mergeRecords_loop.
  rewrite Hlen, for_range_result_snoc, Hrun. cbn [bind Nat.add].
  unfold RecordUtil.mergeRecords_step.
  assert (Hlast : input !! length L = Some (record2, object2)).
  { rewrite Hinput. by rewrite list_lookup_middle. }
  rewrite Hrec, !list_lookup_fmap_Some_2 with (x := (record2, object2)) by done.
  cbn [fst snd].
  assert (Hprev : idsAndIndices st !! objectId record2 = Some (length l1)).
  { apply Hids. split; [done|]. unfold id_at.
    rewrite Hinput, lookup_app_l, Hfirst by done. cbn. by rewrite Hid. }
  rewrite Hprev.
  rewrite list_lookup_fmap_Some_2 with (x := (record1, object1))
    by (by rewrite Hinput, lookup_app_l).
  cbn [fst]. unfold RecordUtil.mergeRecord.
  destruct (String.eqb (objectData record1) (objectData record2));
    cbn [negb bind]; [|done].
  cbn [records outputList]. f_equal.
  rewrite Hout, Htake.
  change (length l1, object2)
    with ((fun i (item : SyncRecord * option SyncRecord) => (i, item.2))
            (length l1) (merge record1 record2, object2)).
  rewrite <- imap_insert.
  assert (Hres : <[length l1 := (merge record1 record2, object2)]> L
                 = l1 ++ (merge record1 record2, object2) :: l2).
  { unfold L. rewrite <- (Nat.add_0_r (length l1)) at 1. by rewrite insert_app_r. }
  rewrite Hres. apply read_items_imap. intros i item Hi.
  change (map fst input) with (input.*1).
  rewrite Hinput, fmap_app, insert_app_l by (by rewrite length_fmap).
  change (merge record1 record2) with ((merge record1 record2, object2).1).
  rewrite <- (list_fmap_insert fst), Hres.
  apply lookup_app_l_Some. by rewrite list_lookup_fmap, Hi.
Qed.

(** X25: the index kept for an id is an index of the output, and the
    record to merge into is read at this index in the input.  After one
    merge the two differ: of two pairs of records with the same id, the
    second pair is merged into the second record of the first pair, and the
    first record of the second pair is lost. *)
Theorem mergeRecords_second_pair
    (a a' b b' : SyncRecord) (oa oa' ob ob' : option SyncRecord) :
  objectId a' = objectId a ->
  objectId b' = objectId b ->
  objectId b <> objectId a ->
  mergeRecords [(a, oa); (a', oa'); (b, ob); (b', ob')]
  = if negb (String.eqb (objectData a) (objectData a'))
    then Throw Mismatched_objectData
    else if negb (String.eqb (objectData a') (objectData b'))
    then Throw Mismatched_objectData
    else OK [(merge a a', oa'); (merge a' b', ob')].
Proof.
  intros Ha Hb Hne.
  unfold RecordUtil.mergeRecords, RecordUtil.mergeRecords_loop.
  cbn [length for_range_result map fst snd].
  unfold RecordUtil.mergeRecords_step at 1. cbn [records idsAndIndices outputList].
  cbn [lookup list_lookup]. rewrite lookup_empty. cbn [bind app length].
  unfold RecordUtil.mergeRecords_step at 1. cbn [records idsAndIndices outputList].
  cbn [lookup list_lookup]. rewrite Ha, lookup_insert_eq.
  cbn [lookup list_lookup]. unfold RecordUtil.mergeRecord at 1.
  destruct (String.eqb (objectData a) (objectData a')); cbn [negb bind]; [|done].
  unfold RecordUtil.mergeRecords_step at 1. cbn [records idsAndIndices outputList].
  cbn [insert list_insert lookup list_lookup].
  rewrite lookup_insert_ne by done. rewrite lookup_empty. cbn [bind app length].
  unfold RecordUtil.mergeRecords_step at 1. cbn [records idsAndIndices outputList].
  cbn [lookup list_lookup]. rewrite Hb, lookup_insert_eq.
  cbn [lookup list_lookup]. unfold RecordUtil.mergeRecord at 1.
  destruct (String.eqb (objectData a') (objectData b')); cbn [negb bind]; [|done].
  done.
Qed.

Lemma mergeRecords_run_typed (type : string)
    (input : list (SyncRecord * option SyncRecord)) (k : nat) :
  (forall record1 record2,
     objectData record1 = objectData record2 ->
     objectData (merge record1 record2) = objectData record1) ->
  Forall (fun item : SyncRecord * option SyncRecord => objectData item.1 = type) input ->
  k <= length input ->
  exists st,
    for_range_result 0 k (mergeRecords_step (map snd input))
      {| records := input.*1; idsAndIndices := ∅; outputList := [] |} = OK st
    /\ Forall (fun record => objectData record = type) (records st).
Proof.
  intros Hmerge Htyped. induction k as [|k IH]; intros Hk.
  - eexists. split; [done|]. cbn [records]. by apply Forall_fmap.
  - destruct IH as (st & Hrun & Hst); [lia|].
    pose proof (mergeRecords_run input k ltac:(lia)) as Hinv.
    change (map snd input) with (input.*2) in *.
    rewrite for_range_result_snoc, Hrun. rewrite Hrun in Hinv. cbn [bind Nat.add].
    pose proof (mergeRecords_step_invariant input k st ltac:(lia) Hinv) as Hstep.
    change (map snd input) with (input.*2) in Hstep.
    rewrite Forall_forall in Hst.
    destruct (mergeRecords_step input.*2 k st) as [st'|e] eqn:Hrun'.
    + exists st'. split; [done|]. revert Hrun'.
      unfold RecordUtil.mergeRecords_step.
      destruct (records st !! k) as [record|] eqn:Hrecord;
        [|intros [= <-]; by apply Forall_forall].
      destruct (input.*2 !! k) as [object|];
        [|intros [= <-]; by apply Forall_forall].
      destruct (idsAndIndices st !! objectId record) as [previousIndex|];
        [|intros [= <-]; by apply Forall_forall].
      destruct (records st !! previousIndex) as [previousRecord|] eqn:Hprevious;
        [|done].
      unfold RecordUtil.mergeRecord.
      destruct (String.eqb_spec (objectData previousRecord) (objectData record))
        as [Hsame|]; cbn [negb bind]; [|done].
      intros [= <-]. cbn [records]. apply Forall_insert; [by apply Forall_forall|].
      rewrite Hmerge by done. apply Hst. by eapply list_elem_of_lookup_2.
    + exfalso. destruct Hstep as (_ & record1 & record2 & H1 & H2 & Hdiff).
      apply Hdiff. by rewrite (Hst _ H1), (Hst _ H2).
Qed.

(** X26: when the records all have the same [objectData], and merging two
    such records keeps it, [mergeRecords] does not throw. *)
Theorem mergeRecords_same_objectData (type : string)
    (input : list (SyncRecord * option SyncRecord)) :
  (forall record1 record2,
     objectData record1 = objectData record2 ->
     objectData (merge record1 record2) = objectData record1) ->
  Forall (fun item : SyncRecord * option SyncRecord => objectData item.1 = type) input ->
  exists output, mergeRecords input = OK output.
Proof.
  intros Hmerge Htyped.
  destruct (mergeRecords_run_typed type input (length input) Hmerge Htyped)
    as (st & Hrun & _); [done|].
  unfold RecordUtil.mergeRecords, RecordUtil.mergeRecords_loop.
  change (map fst input) with (input.*1). rewrite Hrun. cbn [bind].
  by eexists.
Qed.

(** *** Resolving a list of records *)

#[local] Abbreviation resolveRecords :=
  (RecordUtil.resolveRecords CREATE UPDATE DELETE valueEquals merge string_gt_0).
#[local] Abbreviation resolveRecords_step :=
  (RecordUtil.resolveRecords_step CREATE UPDATE DELETE valueEquals string_gt_0).
#[local] Abbreviation resolve_each :=
  (RecordUtil.resolve_each CREATE UPDATE DELETE valueEquals string_gt_0).

Lemma omap_read_insert (store : list SyncRecord)
    (resolvedRecords : list (nat + SyncRecord)) (i : nat) (record : SyncRecord) :
  Forall (fun item : nat + SyncRecord =>
            match item with inl ref => ref < i | inr _ => True end)
         resolvedRecords ->
  omap (read (<[i := record]> store)) resolvedRecords
  = omap (read store) resolvedRecords.
Proof.
  induction 1 as [|item items Hitem _ IH]; [done|].
  change (omap ?g (?x :: ?t))
    with (match g x with Some y => y :: omap g t | None => omap g t end).
  rewrite IH. destruct item as [ref|r]; [|done].
  cbn [read]. by rewrite list_lookup_insert_ne by lia.
Qed.

Lemma forEach_resolve_each (times : nat -> Z * Z)
    (items : list (SyncRecord * option SyncRecord)) (i : nat)
    (store : list SyncRecord) (resolvedRecords : list (nat + SyncRecord)) :
  (forall j item, items !! j = Some item -> store !! (i + j) = Some item.1) ->
  Forall (fun item : nat + SyncRecord =>
            match item with inl ref => ref < i | inr _ => True end)
         resolvedRecords ->
  (st <- forEach_result i (imap (fun j item => (i + j, item.2)) items)
           (resolveRecords_step times) (store, resolvedRecords) ;;
   OK (omap (read st.1) st.2))
  = (others <- resolve_each times i items ;;
     OK (omap (read store) resolvedRecords ++ others)).
Proof.
  revert i store resolvedRecords.
  induction items as [|[record existingObject] items IH];
    intros i store resolvedRecords Hstore Hrefs.
  - cbn. by rewrite app_nil_r.
  - cbn [imap forEach_result RecordUtil.resolve_each snd].
    unfold RecordUtil.resolveRecords_step at 1.
    rewrite (Hstore 0 (record, existingObject) eq_refl). cbn [fst].
    destruct (resolve (Some record) existingObject (times i).1 (times i).2)
      as [[resolved|]|e]; cbn [bind]; [| |done].
    + destruct existingObject as [existingObject|]; cbn [bind].
      * rewrite (imap_ext _ (fun j item => (S i + j, item.2)))
          by (intros; cbn; f_equal; lia).
        rewrite IH.
        -- destruct (resolve_each times (S i) items); cbn [bind]; [|done].
           rewrite omap_app. cbn. by rewrite <- app_assoc.
        -- intros j item Hj. replace (S i + j) with (i + S j) by lia.
           by apply Hstore.
        -- apply Forall_app. split; [|by apply Forall_singleton].
           eapply Forall_impl; [done|]. intros [ref|r]; [lia|done].
      * rewrite (imap_ext _ (fun j item => (S i + j, item.2)))
          by (intros; cbn; f_equal; lia).
        rewrite Nat.add_0_r. rewrite IH.
        -- destruct (resolve_each times (S i) items); cbn [bind]; [|done].
           rewrite omap_app, omap_read_insert by done. cbn [omap list_omap read].
           rewrite list_lookup_insert_eq
             by (apply lookup_lt_is_Some; rewrite <- (Nat.add_0_r i);
                 by rewrite (Hstore 0 (record, None) eq_refl)).
           by rewrite <- app_assoc.
        -- intros j item Hj. rewrite list_lookup_insert_ne by lia.
           replace (S i + j) with (i + S j) by lia. by apply Hstore.
        -- apply Forall_app. split; [|apply Forall_singleton; lia].
           eapply Forall_impl; [done|]. intros [ref|r]; [lia|done].
    + rewrite (imap_ext _ (fun j item => (S i + j, item.2)))
        by (intros; cbn; f_equal; lia).
      rewrite IH.
      * by destruct (resolve_each times (S i) items).
      * intros j item Hj. replace (S i + j) with (i + S j) by lia.
        by apply Hstore.
      * eapply Forall_impl; [done|]. intros [ref|r]; [lia|done].
Qed.

(** X27: when the ids of the records all differ, [resolveRecords]
    resolves each item by itself, in order, and returns the results that
    are not null; it throws what the first item that throws throws. *)
Theorem resolveRecords_distinct (times : nat -> Z * Z)
    (input : list (SyncRecord * option SyncRecord)) :
  NoDup (ids input) ->
  resolveRecords times input = resolve_each times 0 input.
Proof.
  intros Hnd.
  destruct (mergeRecords_copies input (length input)) as (st & Hrun & Hrec & Hout & _).
  { done. } { by rewrite firstn_all. }
  unfold RecordUtil.resolveRecords, RecordUtil.mergeRecords_loop.
  rewrite Hrun. cbn [bind]. rewrite Hrec, Hout, firstn_all.
  pose proof (forEach_resolve_each times input 0 (map fst input) []) as Heach.
  cbn [Nat.add] in Heach. rewrite Heach.
  - by destruct (resolve_each times 0 input).
  - intros j item Hj. cbn. by rewrite list_lookup_fmap, Hj.
  - done.
Qed.

End RecordUtilFacts.

(** ** The record utilities on examples *)

Import RecordUtil ToyRecords.

(** X15 on an example: the existing object has the location of the update
    and another title, and no access time. *)
Lemma resolveRecordWithObject_update_witness :
  resolveRecordWithObject UPDATE DELETE valueEquals
    (site UPDATE 1 revisited) (site CREATE 1 visited)
  = OK (Some (with_data (site UPDATE 1 revisited)
                {["title" := JStr "B"; "lastAccessedTime" := JNum (num_of_Z 5)]})).
Proof.
  rewrite (resolveRecordWithObject_update UPDATE DELETE valueEquals
             (site UPDATE 1 revisited) (site CREATE 1 visited) revisited visited
             eq_refl eq_refl eq_refl).
  - vm_compute. reflexivity.
  - split; apply not_elem_of_dom; reflexivity.
Defined.

(** X16 on an example: the deletion names a field that the object has and
    one that it lacks. *)
Lemma resolveRecordWithObject_delete_witness :
  resolveRecordWithObject UPDATE DELETE valueEquals
    (site DELETE 1 {["title" := JStr ""; "favicon" := JStr ""]})
    (site CREATE 1 visited)
  = OK (Some (with_data (site DELETE 1 {["title" := JStr ""; "favicon" := JStr ""]})
                {["title" := JStr ""]})).
Proof.
  rewrite (resolveRecordWithObject_delete UPDATE DELETE valueEquals
             (site DELETE 1 {["title" := JStr ""; "favicon" := JStr ""]})
             (site CREATE 1 visited)
             {["title" := JStr ""; "favicon" := JStr ""]} visited
             eq_refl ltac:(discriminate) eq_refl eq_refl).
  - vm_compute. reflexivity.
  - split; apply not_elem_of_dom; reflexivity.
Defined.

(** X18 on an example. *)
Lemma createFromUpdate_historySite_witness :
  createFromUpdate CREATE UPDATE string_gt_0 (Some (site UPDATE 1 visited)) 10 11
  = OK (Some (with_action_data (site UPDATE 1 visited) CREATE
                {["location" := JStr "https://a.example"; "title" := JStr "A";
                  "customTitle" := JStr "https://a.example";
                  "lastAccessedTime" := JNum (num_of_Z 10); "creationTime" := JNum (num_of_Z 11)]})).
Proof.
  destruct (createFromUpdate_historySite CREATE UPDATE string_gt_0
              (site UPDATE 1 visited) 10 11 eq_refl eq_refl) as [Hsite _].
  rewrite (Hsite visited eq_refl).
  - vm_compute. reflexivity.
  - apply not_elem_of_dom. reflexivity.
Defined.

(** X19 on an example. *)
Lemma createFromUpdate_siteSetting_witness :
  createFromUpdate CREATE UPDATE string_gt_0 (Some setting) 10 11
  = OK (Some (with_action_data setting CREATE
                {["hostPattern" := JStr "https://a.example"; "zoomLevel" := JNum (num_of_Z 2)]})).
Proof.
  rewrite (createFromUpdate_siteSetting CREATE UPDATE string_gt_0 setting
             {["hostPattern" := JStr "https://a.example"; "zoomLevel" := JNum (num_of_Z 2)]}
             10 11 eq_refl eq_refl eq_refl).
  reflexivity.
Defined.

(** X20 on an example: a folder, whose site has a custom title and no
    location. *)
Lemma createFromUpdate_bookmark_witness :
  createFromUpdate CREATE UPDATE string_gt_0 (Some (bookmark_of folder)) 10 11
  = OK (Some (with_action_data (bookmark_of folder) CREATE
                (folder ∪ {["isFolder" := JBool true]}))).
Proof.
  assert (Hproto : "__proto__" ∉ dom folder).
  { apply not_elem_of_dom. reflexivity. }
  destruct (createFromUpdate_bookmark CREATE UPDATE string_gt_0
              (bookmark_of folder) folder 10 11 eq_refl eq_refl eq_refl Hproto I)
    as (_ & Hfolder & _).
  exact (Hfolder eq_refl eq_refl).
Defined.

(** X22 on an example. *)
Lemma mergeRecords_distinct_witness :
  mergeRecords merge
    [(site UPDATE 1 revisited, Some (site CREATE 1 visited));
     (site CREATE 2 visited, None)]
  = OK [(site UPDATE 1 revisited, Some (site CREATE 1 visited));
        (site CREATE 2 visited, None)].
Proof.
  apply mergeRecords_distinct. apply (bool_decide_unpack _). vm_compute. exact I.
Defined.

(** X24 on an example: a creation and a later update of the same site,
    with another record between them. *)
Lemma mergeRecords_trailing_duplicate_witness :
  mergeRecords merge
    ([] ++ (site CREATE 1 visited, None)
        :: [(site CREATE 2 visited, None)]
        ++ [(site UPDATE 1 revisited, Some (site CREATE 1 visited))])
  = OK [(merge (site CREATE 1 visited) (site UPDATE 1 revisited),
         Some (site CREATE 1 visited));
        (site CREATE 2 visited, None)].
Proof.
  rewrite (mergeRecords_trailing_duplicate merge).
  - reflexivity.
  - apply (bool_decide_unpack _). vm_compute. exact I.
  - reflexivity.
Defined.

(** X25 on an example: the first record for site 2 is not in the output,
    and the second one is merged into a record for site 1. *)
Lemma mergeRecords_second_pair_witness :
  mergeRecords merge
    [(site CREATE 1 visited, None); (site UPDATE 1 revisited, None);
     (site CREATE 2 visited, None); (site UPDATE 2 revisited, None)]
  = OK [(merge (site CREATE 1 visited) (site UPDATE 1 revisited), None);
        (merge (site UPDATE 1 revisited) (site UPDATE 2 revisited), None)].
Proof.
  rewrite (mergeRecords_second_pair merge); [reflexivity..|discriminate].
Defined.

(** X26 on an example. *)
Lemma mergeRecords_same_objectData_witness :
  exists output,
    mergeRecords merge
      [(site CREATE 1 visited, None); (site UPDATE 1 revisited, None);
       (site CREATE 2 visited, None); (site UPDATE 2 revisited, None)]
    = OK output.
Proof.
  apply (mergeRecords_same_objectData merge "historySite").
  - intros record1 record2 Hsame. symmetry. exact Hsame.
  - repeat constructor.
Defined.

(** X21 on an example: an update for a site that exists. *)
Lemma resolve_result_witness :
  resolve CREATE UPDATE DELETE valueEquals string_gt_0
    (Some (site UPDATE 1 revisited)) (Some (site CREATE 1 visited)) 10 11
  = OK (Some (with_data (site UPDATE 1 revisited)
                {["title" := JStr "B"; "lastAccessedTime" := JNum (num_of_Z 5)]}))
  /\ objectId (with_data (site UPDATE 1 revisited)
                 {["title" := JStr "B"; "lastAccessedTime" := JNum (num_of_Z 5)]})
     = objectId (site UPDATE 1 revisited).
Proof.
  assert (Hresolve :
    resolve CREATE UPDATE DELETE valueEquals string_gt_0
      (Some (site UPDATE 1 revisited)) (Some (site CREATE 1 visited)) 10 11
    = OK (Some (with_data (site UPDATE 1 revisited)
                  {["title" := JStr "B"; "lastAccessedTime" := JNum (num_of_Z 5)]}))).
  { vm_compute. reflexivity. }
  split; [exact Hresolve|].
  exact (proj1 (proj2 (resolve_result _ _ _ _ _ _ _ _ _ _ Hresolve))).
Defined.

(** X27 on an example: an update for a site that exists, and the creation
    of another. *)
Lemma resolveRecords_distinct_witness :
  resolveRecords CREATE UPDATE DELETE valueEquals merge string_gt_0 times
    [(site UPDATE 1 revisited, Some (site CREATE 1 visited));
     (site CREATE 2 visited, None)]
  = OK [with_data (site UPDATE 1 revisited)
          {["title" := JStr "B"; "lastAccessedTime" := JNum (num_of_Z 5)]};
        site CREATE 2 visited].
Proof.
  rewrite resolveRecords_distinct.
  - vm_compute. reflexivity.
  - apply (bool_decide_unpack _). vm_compute. exact I.
Defined.
